(** * Offline operation queue of GreenSentinel-Citoyen

    A shallow embedding of [src/services/offline/queueManager.js] together
    with the one function of the API client it calls ([isAuthenticated]).

    What is modelled, and how:
    - [localStorage] is reduced to the two keys the queue manager reads:
      the queue slot ['gs_operation_queue'] and the token ['gs_auth_token'];
    - the module variables [isProcessing] and [networkListenerActive] are
      fields of the [World] record that every operation threads;
    - everything the code asks of its surroundings ([Date.now()],
      [Math.random()], whether [localStorage.setItem] succeeds, whether a
      dynamic [import] or a remote API call resolves) is read from an
      [Env] record supplied per invocation;
    - [try]/[catch]/[finally] is modelled by a small state-and-exception
      monad [M];
    - a processing run is followed from its invocation to its return: the
      remote executors are oracles that resolve or reject, and no other
      queue operation is interleaved at the [await] points of a run. (An
      executor that re-queues its own intent, as [submitReport] does on a
      network error, writes the slot during the run; the save that ends
      the run overwrites it, so the slot after a run is as modelled.)
      What an executor does to the world besides settling (such a
      re-queue, which may also register the listener; the removal of the
      token by [apiRequest] on a 401) is not part of the model of a
      dispatch: the properties stated of a dispatch or of a run speak of
      what does not depend on it, that is the completion, the two ghost
      logs, the update of the items, the flag, and the store after a
      save that was accepted. *)

From Stdlib Require Import ZArith String List Bool Lia.
From stdpp Require Import base option list strings.

Set Warnings "-register-all".

Local Open Scope string_scope.
Local Open Scope list_scope.
Local Open Scope Z_scope.

(** ** JSON payloads *)

(** The [data] payload of a queue item and the objects returned to callers
    are JSON values. An integer stands for a JSON number: the queue never
    computes with payload numbers. The members of an object carry distinct
    keys, as in every JavaScript object. *)
Inductive Json : Type :=
  | JNull
  | JBool (b : bool)
  | JNum (n : Z)
  | JStr (s : string)
  | JArr (elems : list Json)
  | JObj (members : list (string * Json)).

(** A JavaScript argument: a JSON value or [undefined]. *)
Inductive JsArg : Type :=
  | undefined
  | value (v : Json).

Fixpoint assoc (k : string) (members : list (string * Json)) : option Json :=
  match members with
  | [] => None
  | (k', v) :: rest => if String.eqb k k' then Some v else assoc k rest
  end.

(** [member k o] is [o.k] for an object [o]; [None] stands for a missing
    member. *)
Definition member (k : string) (o : Json) : option Json :=
  match o with
  | JObj members => assoc k members
  | _ => None
  end.

(** [prop o k] is the property read [o.k] as the dispatcher performs it on
    a payload ([data.id], [data.eventId]): reading a property of [null]
    raises a [TypeError] (here [None]); on every other value a missing
    property reads as [undefined]. *)
Definition prop (o : Json) (k : string) : option JsArg :=
  match o with
  | JNull => None
  | JObj members =>
      Some (match assoc k members with Some v => value v | None => undefined end)
  | _ => Some undefined
  end.

(** ** Queue items *)

Inductive Status : Type := pending | completed | failed.

#[global] Instance Status_eq_dec : EqDecision Status.
Proof. solve_decision. Defined.

Definition status_string (s : Status) : string :=
  match s with
  | pending => "pending"
  | completed => "completed"
  | failed => "failed"
  end.

Record QueueItem : Type := mkItem {
  id : string;
  resource : string;
  operation : string;
  data : Json;
  timestamp : Z;
  attempts : Z;
  status : Status;
  lastError : option string
}.

(** The JavaScript object a queue item is, as a caller of [queueOperation]
    receives it. [lastError] is a member only once it has been assigned. *)
Definition item_json (q : QueueItem) : Json :=
  JObj ([ ("id", JStr (id q));
          ("resource", JStr (resource q));
          ("operation", JStr (operation q));
          ("data", data q);
          ("timestamp", JNum (timestamp q));
          ("attempts", JNum (attempts q));
          ("status", JStr (status_string (status q))) ]
        ++ match lastError q with
           | Some e => [ ("lastError", JStr e) ]
           | None => []
           end).

(** The fields the processor never writes. *)
Definition identity (q : QueueItem) : string * string * string * Json * Z :=
  (id q, resource q, operation q, data q, timestamp q).

(** ** The remote collaborators *)

Inductive ApiModule : Type := reportService | eventService | userService.

#[global] Instance ApiModule_eq_dec : EqDecision ApiModule.
Proof. solve_decision. Defined.

(** The three remote writes the dispatcher can issue, with their
    arguments. *)
Inductive ApiCall : Type :=
  | submitReport (reportData : Json)
  | updateReport (reportId : JsArg) (updateData : Json)
  | registerForEvent (eventId : JsArg).

(** The module that exports each of them. *)
Definition provider (c : ApiCall) : ApiModule :=
  match c with
  | submitReport _ => reportService
  | updateReport _ _ => reportService
  | registerForEvent _ => eventService
  end.

(** How a remote call settles. Every rejection and every [throw] in the
    services carries an object, so that reading its [message] in the loop
    cannot fail; the message is what the model keeps of it. *)
Inductive Outcome : Type :=
  | Resolved
  | Rejected (message : string).

(** ** The world and the environment *)

(** What [JSON.parse] yields for the text under the queue key: an array of
    queue items (all [saveQueue] ever writes), or a JSON value that is no
    array and has no [length], [push] or [filter] ([null], a boolean, a
    number, an object without such members). *)
Inductive Parsed : Type :=
  | PArray (items : list QueueItem)
  | PNonArray.

(** The queue key of [localStorage]: nothing stored, a text that cannot be
    read or parsed, or a text that parses. *)
Inductive Slot : Type :=
  | Absent
  | Unreadable
  | Holds (v : Parsed).

Record World : Type := mkWorld {
  queueSlot : Slot;
  authToken : option string;
  isProcessing : bool;
  networkListenerActive : bool;
  onlineListeners : nat;
  (* ghost: ids of the items handed to [processQueueItem], oldest first *)
  attempted : list string;
  (* ghost: remote calls issued, oldest first *)
  calls : list ApiCall
}.

Record Env : Type := mkEnv {
  now : Z;
  random36 : string;
  setItemOk : bool;
  importError : nat -> ApiModule -> option string;
  remote : nat -> ApiCall -> Outcome;
  typeError : string
}.

(** ** A monad for state and exceptions *)

Inductive Completion (A : Type) : Type :=
  | Normal (v : A)
  | Thrown (message : string).
Arguments Normal {A} v.
Arguments Thrown {A} message.

Definition M (A : Type) : Type := World -> Completion A * World.

Definition ret {A} (v : A) : M A := fun w => (Normal v, w).

Definition bind {A B} (c : M A) (k : A -> M B) : M B :=
  fun w =>
    match c w with
    | (Normal v, w') => k v w'
    | (Thrown e, w') => (Thrown e, w')
    end.

Definition throw {A} (message : string) : M A := fun w => (Thrown message, w).

Definition try_catch {A} (body : M A) (handler : string -> M A) : M A :=
  fun w =>
    match body w with
    | (Normal v, w') => (Normal v, w')
    | (Thrown e, w') => handler e w'
    end.

(** [finally]: the block runs on every completion of the body and leaves
    the completion as it was. *)
Definition try_finally {A} (body : M A) (cleanup : World -> World) : M A :=
  fun w => let (r, w') := body w in (r, cleanup w').

Definition modify (f : World -> World) : M unit := fun w => (Normal tt, f w).

Definition get {A} (f : World -> A) : M A := fun w => (Normal (f w), w).

Notation "x <~ c ;; k" := (bind c (fun x => k))
  (at level 100, c at next level, k at level 200, right associativity).
Notation "c ;;; k" := (bind c (fun _ => k))
  (at level 100, k at level 200, right associativity).

(** ** World updates *)

Definition set_queueSlot (s : Slot) (w : World) : World :=
  mkWorld s (authToken w) (isProcessing w) (networkListenerActive w)
          (onlineListeners w) (attempted w) (calls w).

Definition set_isProcessing (b : bool) (w : World) : World :=
  mkWorld (queueSlot w) (authToken w) b (networkListenerActive w)
          (onlineListeners w) (attempted w) (calls w).

Definition addOnlineListener (w : World) : World :=
  mkWorld (queueSlot w) (authToken w) (isProcessing w) true
          (S (onlineListeners w)) (attempted w) (calls w).

Definition log_attempt (ident : string) (w : World) : World :=
  mkWorld (queueSlot w) (authToken w) (isProcessing w) (networkListenerActive w)
          (onlineListeners w) (attempted w ++ [ident]) (calls w).

Definition log_call (c : ApiCall) (w : World) : World :=
  mkWorld (queueSlot w) (authToken w) (isProcessing w) (networkListenerActive w)
          (onlineListeners w) (attempted w) (calls w ++ [c]).

(** ** Item updates *)

Definition set_status (s : Status) (q : QueueItem) : QueueItem :=
  mkItem (id q) (resource q) (operation q) (data q) (timestamp q)
         (attempts q) s (lastError q).

(** [item.attempts++; item.lastError = error.message]. *)
Definition record_failure (message : string) (q : QueueItem) : QueueItem :=
  mkItem (id q) (resource q) (operation q) (data q) (timestamp q)
         (attempts q + 1) (status q) (Some message).

(** ** The queue manager *)

(** [Boolean(localStorage.getItem(AUTH_TOKEN_KEY))]: a missing token and
    the empty string are falsy. *)
Definition isAuthenticated (w : World) : bool :=
  match authToken w with
  | None => false
  | Some token => negb (String.eqb token "")
  end.

(** JavaScript's [s.substr(start, length)] for non-negative arguments: at
    most [length] characters from position [start], fewer when the string
    ends before. *)
Definition substr (start length : nat) (s : string) : string :=
  String.substring start length s.

(** ['queue_' + Math.random().toString(36).substr(2, 9)]. *)
Definition generateId (env : Env) : string :=
  "queue_" +:+ substr 2 9 (random36 env).

(** [getQueue] never throws: a missing, unreadable or unparsable text reads
    as the empty array. *)
Definition readSlot (s : Slot) : Parsed :=
  match s with
  | Absent => PArray []
  | Unreadable => PArray []
  | Holds v => v
  end.

Definition getQueue : M Parsed := get (fun w => readSlot (queueSlot w)).

(** [saveQueue] catches and logs a failed [setItem]; the slot then keeps
    what it held. *)
Definition saveQueue (env : Env) (queue : list QueueItem) : M unit :=
  modify (fun w =>
    if setItemOk env then set_queueSlot (Holds (PArray queue)) w else w).

Definition setupNetworkListener : M unit :=
  modify (fun w => if networkListenerActive w then w else addOnlineListener w).

(** [queue.push(item)] and [queue.length]: a [TypeError] on a value that
    is no array. *)
Definition push (env : Env) (queue : Parsed) (item : QueueItem) : M (list QueueItem) :=
  match queue with
  | PArray items => ret (items ++ [item])
  | PNonArray => throw (typeError env)
  end.

Definition array_of (env : Env) (queue : Parsed) : M (list QueueItem) :=
  match queue with
  | PArray items => ret items
  | PNonArray => throw (typeError env)
  end.

Definition newItem (env : Env) (resource operation : string) (data : Json) : QueueItem :=
  {| id := generateId env;
     resource := resource;
     operation := operation;
     data := data;
     timestamp := now env;
     attempts := 0;
     status := pending;
     lastError := None |}.

(** The object [queueOperation] returns. *)
Definition queuedResponse (queueItem : QueueItem) : Json :=
  JObj [ ("success", JBool true);
         ("id", JStr (id queueItem));
         ("message", JStr "Operation queued for processing when online");
         ("queuedOperation", item_json queueItem);
         ("offline", JBool true) ].

Definition queueOperation (env : Env) (resource operation : string) (data : Json)
  : M Json :=
  try_catch
    (queue <~ getQueue ;;
     let queueItem := newItem env resource operation data in
     queue' <~ push env queue queueItem ;;
     saveQueue env queue' ;;;
     setupNetworkListener ;;;
     ret (queuedResponse queueItem))
    (fun error => throw "Failed to queue operation for offline processing").

(** *** The dispatcher *)

(** [await import(...)]. *)
Definition importModule (env : Env) (i : nat) (m : ApiModule) : M ApiModule :=
  match importError env i m with
  | None => ret m
  | Some message => throw message
  end.

(** Calling [apiModule.f(args)]: a [TypeError] when the module does not
    export [f], else the remote call is issued and resolves or rejects.
    Of the call only its settling and its place in the call log are
    modelled, not what the service function does to the store, the
    listener or the token on the way. *)
Definition invoke (env : Env) (i : nat) (apiModule : ApiModule) (c : ApiCall) : M unit :=
  if decide (apiModule = provider c) then
    modify (log_call c) ;;;
    match remote env i c with
    | Resolved => ret tt
    | Rejected message => throw message
    end
  else throw (typeError env).

(** [i] is the position of the item in the run, under which the
    environment answers for it. *)
Definition processQueueItem (env : Env) (i : nat) (item : QueueItem) : M unit :=
  modify (log_attempt (id item)) ;;;
  let resource := resource item in
  let operation := operation item in
  let data := data item in
  try_catch
    (apiModule <~
       (if String.eqb resource "reports" then importModule env i reportService
        else if String.eqb resource "events" then importModule env i eventService
        else if String.eqb resource "users" then importModule env i userService
        else throw ("Unknown resource: " +:+ resource)) ;;
     let key := resource +:+ "/" +:+ operation in
     if String.eqb key "reports/create" then
       invoke env i apiModule (submitReport data)
     else if String.eqb key "reports/update" then
       match prop data "id" with
       | Some reportId => invoke env i apiModule (updateReport reportId data)
       | None => throw (typeError env)
       end
     else if String.eqb key "events/register" then
       match prop data "eventId" with
       | Some eventId => invoke env i apiModule (registerForEvent eventId)
       | None => throw (typeError env)
       end
     else throw ("Unknown operation: " +:+ resource +:+ "/" +:+ operation))
    (fun error => throw error).

(** *** The processing run *)

(** The body of the [for] loop for one item that is not ['completed'];
    [counts] is [(successCount, failureCount)]. *)
Definition attemptItem (env : Env) (i : nat) (item : QueueItem) (counts : Z * Z)
  : M (QueueItem * (Z * Z)) :=
  try_catch
    (processQueueItem env i item ;;;
     ret (set_status completed item, (fst counts + 1, snd counts)))
    (fun error =>
       let item := record_failure error item in
       if 3 <=? attempts item
       then ret (set_status failed item, (fst counts, snd counts + 1))
       else ret (item, counts)).

(** The [for] loop from index [i] on; it returns the array with its items
    updated in place and the two counters. *)
Fixpoint forEachItem (env : Env) (i : nat) (queue : list QueueItem) (counts : Z * Z)
  : M (list QueueItem * (Z * Z)) :=
  match queue with
  | [] => ret ([], counts)
  | item :: rest =>
      if decide (status item = completed) then
        r <~ forEachItem env (S i) rest counts ;;
        ret (item :: fst r, snd r)
      else
        a <~ attemptItem env i item counts ;;
        r <~ forEachItem env (S i) rest (snd a) ;;
        ret (fst a :: fst r, snd r)
  end.

Definition DAY : Z := 24 * 60 * 60 * 1000.

(** The predicate of the sweep:
    [item.status !== 'completed' || item.timestamp > oneDayAgo]. *)
Definition keep (oneDayAgo : Z) (item : QueueItem) : bool :=
  negb (bool_decide (status item = completed)) || (oneDayAgo <? timestamp item).

Definition is_pending (item : QueueItem) : bool :=
  bool_decide (status item = pending).

(** What a run reports. *)
Inductive RunReport : Type :=
  | RSkipped (processed : Z) (skipped : bool)
  | REmpty (processed : Z) (message : string)
  | RSummary (processed failed remaining : Z)
  | RError (error : string).

Definition processQueue (env : Env) : M RunReport :=
  fun w =>
    if isProcessing w || negb (isAuthenticated w) then
      (Normal (RSkipped 0 true), w)
    else
      (modify (set_isProcessing true) ;;;
       try_finally
         (try_catch
            (parsed <~ getQueue ;;
             queue <~ array_of env parsed ;;
             if (length queue =? 0)%nat then
               modify (set_isProcessing false) ;;;
               ret (REmpty 0 "Queue is empty")
             else
               r <~ forEachItem env 0 queue (0, 0) ;;
               let oneDayAgo := now env - DAY in
               let filteredQueue := List.filter (keep oneDayAgo) (fst r) in
               saveQueue env filteredQueue ;;;
               ret (RSummary (fst (snd r)) (snd (snd r))
                             (Z.of_nat (length (List.filter is_pending filteredQueue)))))
            (fun error => ret (RError error)))
         (set_isProcessing false)) w.

(** [getQueueStatus]: [queue.filter] raises on a value that is no array. *)
Record QueueStatus : Type := mkStatus {
  total : nat;
  pendingCount : nat;
  completedCount : nat;
  failedCount : nat;
  processing : bool
}.

Definition count_status (s : Status) (queue : list QueueItem) : nat :=
  length (List.filter (fun item => bool_decide (status item = s)) queue).

Definition getQueueStatus (env : Env) : M QueueStatus :=
  parsed <~ getQueue ;;
  queue <~ array_of env parsed ;;
  flag <~ get isProcessing ;;
  ret (mkStatus (length queue) (count_status pending queue)
                (count_status completed queue) (count_status failed queue) flag).

(** * Definitions for the statements *)

(** ** Ghost logs and the pass over the queue *)

(** [log_all ids cs w] is [w] with [ids] and [cs] appended to its two ghost
    logs: all a dispatch ever changes of the world. *)
Definition log_all (ids : list string) (cs : list ApiCall) (w : World) : World :=
  mkWorld (queueSlot w) (authToken w) (isProcessing w) (networkListenerActive w)
          (onlineListeners w) (attempted w ++ ids) (calls w ++ cs).

(** The world in which the verdict of a dispatch is read off: a dispatch
    consults the environment and the item only. *)
Definition blank : World := mkWorld Absent None false false 0 [] [].

Definition verdict (env : Env) (i : nat) (item : QueueItem) : Completion unit :=
  fst (processQueueItem env i item blank).

Definition issued (env : Env) (i : nat) (item : QueueItem) : list ApiCall :=
  calls (snd (processQueueItem env i item blank)).

(** [logs ids c]: whatever the world, [c] completes the same way and
    changes the world by appending [ids] to the attempts and some fixed
    calls to the call log. *)
Definition logs {A} (ids : list string) (c : M A) : Prop :=
  exists r cs, forall w, c w = (r, log_all ids cs w).

(** The item as one pass of the loop leaves it. *)
Definition settle (env : Env) (i : nat) (item : QueueItem) : QueueItem :=
  match verdict env i item with
  | Normal _ => set_status completed item
  | Thrown error =>
      let item := record_failure error item in
      if 3 <=? attempts item then set_status failed item else item
  end.

Definition step (env : Env) (i : nat) (item : QueueItem) : QueueItem :=
  if decide (status item = completed) then item else settle env i item.

Definition not_completed (item : QueueItem) : bool :=
  negb (bool_decide (status item = completed)).

Fixpoint issuedFrom (env : Env) (i : nat) (queue : list QueueItem) : list ApiCall :=
  match queue with
  | [] => []
  | item :: rest =>
      (if decide (status item = completed) then [] else issued env i item)
      ++ issuedFrom env (S i) rest
  end.

Definition passed (env : Env) (queue : list QueueItem) : list QueueItem :=
  imap (step env) queue.

Definition swept (env : Env) (queue : list QueueItem) : list QueueItem :=
  List.filter (keep (now env - DAY)) (passed env queue).

(** The world a run that reached the loop leaves behind. *)
Definition after_run (env : Env) (queue : list QueueItem) (w : World) : World :=
  let w1 := log_all (map id (List.filter not_completed queue))
                    (issuedFrom env 0 queue) (set_isProcessing true w) in
  set_isProcessing false
    (if setItemOk env then set_queueSlot (Holds (PArray (swept env queue))) w1 else w1).

(** ** Sample worlds and environments *)

Definition always (o : Outcome) : nat -> ApiCall -> Outcome := fun _ _ => o.

Definition no_import_error : nat -> ApiModule -> option string := fun _ _ => None.

Definition type_error_text : string := "TypeError: Cannot read properties of null".

(** A connected, well-behaved environment: the store accepts writes and
    every remote call resolves. *)
Definition env_online : Env :=
  mkEnv 1700000000000 "0.4fzyo82mvyr" true no_import_error (always Resolved) type_error_text.

(** The network is down: every remote call rejects. *)
Definition env_offline : Env :=
  mkEnv 1700000000000 "0.4fzyo82mvyr" true no_import_error
        (always (Rejected "Failed to fetch")) type_error_text.

(** The store refuses writes (quota exceeded). *)
Definition env_store_full : Env :=
  mkEnv 1700000000000 "0.4fzyo82mvyr" false no_import_error (always Resolved) type_error_text.

Definition report_payload : Json :=
  JObj [ ("type", JStr "fire"); ("severity", JStr "high") ].

Definition item_a : QueueItem :=
  mkItem "queue_a1b2c3d4e" "reports" "create" report_payload 1699999000000 0 pending None.

Definition item_b : QueueItem :=
  mkItem "queue_f5g6h7i8j" "events" "register" (JObj [ ("eventId", JStr "ev42") ])
         1699999100000 1 pending (Some "Failed to fetch").

Definition item_c : QueueItem :=
  mkItem "queue_k9l0m1n2o" "widgets" "create" JNull 1699999200000 0 pending None.

(** An item that has used up its three attempts. *)
Definition item_exhausted : QueueItem :=
  mkItem "queue_p3q4r5s6t" "reports" "create" report_payload 1699999300000 3 failed
         (Some "Failed to fetch").

(** An item completed earlier, created at [stamp]. *)
Definition item_done (stamp : Z) : QueueItem :=
  mkItem "queue_u7v8w9x0y" "reports" "create" report_payload stamp 0 completed None.

Definition world_with (slot : Slot) (busy : bool) : World :=
  mkWorld slot (Some "token") busy true 1 [] [].

Definition world_logged_out (slot : Slot) : World :=
  mkWorld slot None false true 1 [] [].

(** ** A store lifetime *)

Record Request : Type := mkRequest {
  req_env : Env;
  req_resource : string;
  req_operation : string;
  req_data : Json
}.

(** A store lifetime as far as enqueueing goes: one [queueOperation] after
    the other. *)
Fixpoint enqueueAll (requests : list Request) (w : World) : list (Completion Json) * World :=
  match requests with
  | [] => ([], w)
  | r :: rest =>
      let (c, w1) := queueOperation (req_env r) (req_resource r) (req_operation r)
                       (req_data r) w in
      let (cs, w2) := enqueueAll rest w1 in
      (c :: cs, w2)
  end.

Definition created (r : Request) : QueueItem :=
  newItem (req_env r) (req_resource r) (req_operation r) (req_data r).

(** The nine characters of the random draw that make the id. *)
Definition suffix (r : Request) : string := substr 2 9 (random36 (req_env r)).

(** ** The sweep, as specified and as coded *)

(** The sweep as the specification words it: an item goes when it is
    ['completed'] and its timestamp is older than 24 hours from the sweep
    time. *)
Definition older_than_a_day (sweepTime : Z) (item : QueueItem) : bool :=
  DAY <? sweepTime - timestamp item.

Definition sweep_as_specified (sweepTime : Z) (queue : list QueueItem) : list QueueItem :=
  List.filter
    (fun item => negb (bool_decide (status item = completed) && older_than_a_day sweepTime item))
    queue.

(** The sweep as the code performs it: an item goes when it is
    ['completed'] and at least 24 hours old. *)
Definition expired (sweepTime : Z) (item : QueueItem) : bool :=
  bool_decide (status item = completed) && (DAY <=? sweepTime - timestamp item).

(** * The rest of the queue manager, and its callers *)

(** ** Initialisation and sequences of operations *)

(** [initQueueManager]: the listener is set up, then [navigator.onLine]
    (here [online]) decides whether a timer is set that will call
    [processQueue]; the value is the delay of that timer in milliseconds,
    if one is set. *)
Definition initQueueManager (online : bool) : M (option Z) :=
  setupNetworkListener ;;;
  ret (if online then Some 3000 else None).

(** The operations the module exports, with what each asks of its
    surroundings. *)
Inductive Op : Type :=
  | OpQueue (env : Env) (resource operation : string) (data : Json)
  | OpProcess (env : Env)
  | OpStatus (env : Env)
  | OpInit (online : bool).

Definition perform (op : Op) (w : World) : World :=
  match op with
  | OpQueue env resource operation data => snd (queueOperation env resource operation data w)
  | OpProcess env => snd (processQueue env w)
  | OpStatus env => snd (getQueueStatus env w)
  | OpInit online => snd (initQueueManager online w)
  end.

Definition performAll (ops : list Op) (w : World) : World :=
  fold_left (fun w op => perform op w) ops w.

(** The items [getQueue] finds, none when the stored value is no array. *)
Definition items_of (p : Parsed) : list QueueItem :=
  match p with
  | PArray items => items
  | PNonArray => []
  end.

Definition stored (w : World) : list QueueItem := items_of (readSlot (queueSlot w)).

(** What the fields of an item say about each other in every queue the
    module builds. *)
Definition coherent (item : QueueItem) : Prop :=
  0 <= attempts item /\
  (attempts item = 0 <-> lastError item = None) /\
  (status item = pending -> attempts item < 3) /\
  (status item = failed -> 3 <= attempts item).

(** [k] runs, one environment each. *)
Definition processAll (envs : list Env) (w : World) : World :=
  fold_left (fun w env => snd (processQueue env w)) envs w.

(** ** The callers of [queueOperation] *)

(** What a caller of [apiRequest] observes: the response; or a thrown
    error with its [message] and, when the server answered, its
    [status]; or, after a 401, the token removed from [localStorage] and
    the error ['Authentication expired. Please log in again.'] thrown,
    which has no [status]. *)
Inductive Direct : Type :=
  | Answered (response : Json)
  | Refused (message : string) (status : option Z)
  | Expired.

Record ApiError : Type := mkApiError {
  errMessage : string;
  errStatus : option Z
}.

Definition set_authToken (token : option string) (w : World) : World :=
  mkWorld (queueSlot w) token (isProcessing w) (networkListenerActive w)
          (onlineListeners w) (attempted w) (calls w).

(** A call of [apiRequest] as its caller sees it, with the outcome taken
    from the environment; the request itself (URL, headers, [fetch],
    timeout) is not modelled. *)
Definition apiRequest (direct : Direct) (w : World) : (Json + ApiError) * World :=
  match direct with
  | Answered response => (inl response, w)
  | Refused message status => (inr (mkApiError message status), w)
  | Expired =>
      (inr (mkApiError "Authentication expired. Please log in again." None),
       set_authToken None w)
  end.

(** [hay.includes(needle)]. *)
Definition includes (needle hay : string) : bool :=
  match String.index 0 needle hay with
  | Some _ => true
  | None => false
  end.

(** [error.message.includes('network') || error.status === 503]. *)
Definition network_or_unavailable (error : ApiError) : bool :=
  includes "network" (errMessage error)
  || match errStatus error with Some s => s =? 503 | None => false end.

Module EventService.

(** [registerForEvent(eventId)] of the event service: the direct call
    first; on a network error or a 503 the registration is queued. *)
Definition registerForEvent (env : Env) (direct : Direct) (eventId : Json) : M Json :=
  try_catch
    (fun w =>
       match apiRequest direct w with
       | (inl response, w') => (Normal response, w')
       | (inr error, w') =>
           if network_or_unavailable error
           then queueOperation env "events" "register" (JObj [ ("eventId", eventId) ]) w'
           else (Thrown (errMessage error), w')
       end)
    (fun error => throw error).

End EventService.

Module EnvironmentService.

(** The three writes of the environment service: the direct call; on any
    error, the operation is queued when [navigator.onLine] (here
    [online]) is false, else the error is thrown on. *)
Definition subscribeToAreaAlerts (env : Env) (online : bool) (direct : Direct)
  (area alertTypes : Json) : M Json :=
  fun w =>
    match apiRequest direct w with
    | (inl response, w') => (Normal response, w')
    | (inr error, w') =>
        if negb online
        then queueOperation env "environment" "subscribeAlerts"
               (JObj [ ("area", area); ("alertTypes", alertTypes) ]) w'
        else (Thrown (errMessage error), w')
    end.

Definition unsubscribeFromAreaAlerts (env : Env) (online : bool) (direct : Direct)
  (subscriptionId : Json) : M Json :=
  fun w =>
    match apiRequest direct w with
    | (inl response, w') => (Normal response, w')
    | (inr error, w') =>
        if negb online
        then queueOperation env "environment" "unsubscribeAlerts"
               (JObj [ ("subscriptionId", subscriptionId) ]) w'
        else (Thrown (errMessage error), w')
    end.

Definition reportEnvironmentalCondition (env : Env) (online : bool) (direct : Direct)
  (data : Json) : M Json :=
  fun w =>
    match apiRequest direct w with
    | (inl response, w') => (Normal response, w')
    | (inr error, w') =>
        if negb online
        then queueOperation env "environment" "reportCondition" data w'
        else (Thrown (errMessage error), w')
    end.

End EnvironmentService.

(** ** The dispatch table *)

(** The table that the two [switch] statements of [processQueueItem]
    spell out: the remote call an item stands for, if any. *)
Inductive dispatches (item : QueueItem) : ApiCall -> Prop :=
  | dispatch_create :
      resource item = "reports" -> operation item = "create" ->
      dispatches item (submitReport (data item))
  | dispatch_update reportId :
      resource item = "reports" -> operation item = "update" ->
      prop (data item) "id" = Some reportId ->
      dispatches item (updateReport reportId (data item))
  | dispatch_register eventId :
      resource item = "events" -> operation item = "register" ->
      prop (data item) "eventId" = Some eventId ->
      dispatches item (registerForEvent eventId).

(** A resource for which the dispatcher knows a module. *)
Definition known_resource (r : string) : Prop :=
  r = "reports" \/ r = "events" \/ r = "users".

(** What the loop does to an item whose dispatch throws [message]. *)
Definition fail_once (message : string) (item : QueueItem) : QueueItem :=
  let item := record_failure message item in
  if 3 <=? attempts item then set_status failed item else item.

(** A call that answers with the success-shaped response, stores its
    item at the end of [queue], and whose item the dispatcher refuses at
    every attempt as an unknown resource, without a remote call. *)
Definition queued_but_never_replayed (call : M Json) (w : World) (queue : list QueueItem)
  : Prop :=
  exists item w1,
    call w = (Normal (queuedResponse item), w1) /\
    member "success" (queuedResponse item) = Some (JBool true) /\
    queueSlot w1 = Holds (PArray (queue ++ [item])) /\
    status item = pending /\
    forall env' i w2,
      processQueueItem env' i item w2
      = (Thrown "Unknown resource: environment", log_all [id item] [] w2).

(** * Properties *)

(** ** Logs and frames *)

Lemma log_all_nil w : log_all [] [] w = w.
Proof. destruct w; unfold log_all; simpl. by rewrite !app_nil_r. Qed.

Lemma log_all_log_all ids1 cs1 ids2 cs2 w :
  log_all ids2 cs2 (log_all ids1 cs1 w) = log_all (ids1 ++ ids2) (cs1 ++ cs2) w.
Proof. unfold log_all; simpl. by rewrite !app_assoc. Qed.

Lemma log_attempt_log_all ident w : log_attempt ident w = log_all [ident] [] w.
Proof. unfold log_attempt, log_all. by rewrite app_nil_r. Qed.

Lemma log_call_log_all c w : log_call c w = log_all [] [c] w.
Proof. unfold log_call, log_all. by rewrite app_nil_r. Qed.

Section Logs.
Context {A B : Type}.

Lemma logs_ret (v : A) : logs [] (ret v).
Proof. exists (Normal v), []. intros w. by rewrite log_all_nil. Qed.

Lemma logs_throw (e : string) : logs [] (@throw A e).
Proof. exists (Thrown e), []. intros w. by rewrite log_all_nil. Qed.

Lemma logs_bind ids (c : M A) (k : A -> M B) :
  logs ids c -> (forall v, logs [] (k v)) -> logs ids (bind c k).
Proof.
  intros (r & cs & Hc) Hk. destruct r as [v | e].
  - destruct (Hk v) as (r' & cs' & Hkv). exists r', (cs ++ cs'). intros w.
    unfold bind. by rewrite Hc, Hkv, log_all_log_all, app_nil_r.
  - exists (Thrown e), cs. intros w. unfold bind. by rewrite Hc.
Qed.

Lemma logs_try_catch ids (body : M A) (handler : string -> M A) :
  logs ids body -> (forall e, logs [] (handler e)) -> logs ids (try_catch body handler).
Proof.
  intros (r & cs & Hc) Hh. destruct r as [v | e].
  - exists (Normal v), cs. intros w. unfold try_catch. by rewrite Hc.
  - destruct (Hh e) as (r' & cs' & Hhe). exists r', (cs ++ cs'). intros w.
    unfold try_catch. by rewrite Hc, Hhe, log_all_log_all, app_nil_r.
Qed.

End Logs.

Lemma logs_log_attempt ident : logs [ident] (modify (log_attempt ident)).
Proof. exists (Normal tt), []. intros w. unfold modify. by rewrite log_attempt_log_all. Qed.

Lemma logs_log_call c : logs [] (modify (log_call c)).
Proof. exists (Normal tt), [c]. intros w. unfold modify. by rewrite log_call_log_all. Qed.

Lemma logs_importModule env i m : logs [] (importModule env i m).
Proof.
  unfold importModule. destruct (importError env i m); [apply logs_throw | apply logs_ret].
Qed.

Lemma logs_invoke env i m c : logs [] (invoke env i m c).
Proof.
  unfold invoke. case_decide; [| apply logs_throw].
  apply logs_bind; [apply logs_log_call |]. intros _.
  destruct (remote env i c); [apply logs_ret | apply logs_throw].
Qed.

Create HintDb logs.
#[local] Hint Resolve logs_ret logs_throw logs_importModule logs_invoke
  logs_log_attempt : logs.

Lemma logs_processQueueItem env i item : logs [id item] (processQueueItem env i item).
Proof.
  unfold processQueueItem.
  apply logs_bind; [auto with logs |]. intros _.
  apply logs_try_catch; [| auto with logs].
  apply logs_bind.
  - repeat case_match; auto with logs.
  - intros apiModule. repeat case_match; auto with logs.
Qed.

Lemma processQueueItem_log env i item w :
  processQueueItem env i item w
  = (verdict env i item, log_all [id item] (issued env i item) w).
Proof.
  destruct (logs_processQueueItem env i item) as (r & cs & H).
  unfold verdict, issued. by rewrite H, (H blank).
Qed.

Lemma attemptItem_settle env i item counts w :
  exists counts',
    attemptItem env i item counts w
    = (Normal (settle env i item, counts'), log_all [id item] (issued env i item) w).
Proof.
  unfold attemptItem, try_catch, bind, settle.
  rewrite processQueueItem_log.
  destruct (verdict env i item) as [[] | e]; [by eexists |].
  case_match; by eexists.
Qed.

(** The loop never throws; it leaves every item as [step] does, and logs
    one attempt per item that was not ['completed'], in queue order. *)
Lemma forEachItem_imap env queue : forall i counts w,
  exists counts',
    forEachItem env i queue counts w
    = (Normal (imap (fun j => step env (i + j)%nat) queue, counts'),
       log_all (map id (List.filter not_completed queue)) (issuedFrom env i queue) w).
Proof.
  induction queue as [| item rest IH]; intros i counts w.
  - exists counts. simpl. unfold ret. by rewrite log_all_nil.
  - assert (Hshift : imap (fun j => step env (S i + j)%nat) rest
                     = imap ((fun j => step env (i + j)%nat) ∘ S) rest).
    { apply imap_ext. intros j x _. simpl. f_equal. lia. }
    simpl. unfold step at 1, not_completed at 1. rewrite Nat.add_0_r.
    case_decide as Hs.
    + rewrite bool_decide_eq_true_2 by done. simpl.
      destruct (IH (S i) counts w) as (counts' & Hrest).
      exists counts'. unfold bind. rewrite Hrest, Hshift. by unfold ret.
    + rewrite bool_decide_eq_false_2 by done. simpl.
      destruct (attemptItem_settle env i item counts w) as (c1 & Ha).
      destruct (IH (S i) c1 (log_all [id item] (issued env i item) w)) as (counts' & Hrest).
      exists counts'. unfold bind. rewrite Ha. simpl.
      rewrite Hrest, Hshift, log_all_log_all. by unfold ret.
Qed.

(** ** The four ways a run ends *)

Lemma processQueue_skipped env w :
  isProcessing w = true \/ isAuthenticated w = false ->
  processQueue env w = (Normal (RSkipped 0 true), w).
Proof.
  intros [H | H]; unfold processQueue; rewrite H; [done |].
  by rewrite orb_true_r.
Qed.

Section Started.
Variables (env : Env) (w : World).
Hypothesis Hidle : isProcessing w = false.
Hypothesis Hauth : isAuthenticated w = true.

Lemma processQueue_error :
  queueSlot w = Holds PNonArray ->
  processQueue env w
  = (Normal (RError (typeError env)), set_isProcessing false (set_isProcessing true w)).
Proof using Hidle Hauth.
  intros Hslot. unfold processQueue. rewrite Hidle, Hauth. simpl.
  unfold bind, modify, try_finally, try_catch, getQueue, get. simpl.
  by rewrite Hslot.
Qed.

Lemma processQueue_empty :
  readSlot (queueSlot w) = PArray [] ->
  processQueue env w
  = (Normal (REmpty 0 "Queue is empty"),
     set_isProcessing false (set_isProcessing false (set_isProcessing true w))).
Proof using Hidle Hauth.
  intros Hslot. unfold processQueue. rewrite Hidle, Hauth. simpl.
  unfold bind, modify, try_finally, try_catch, getQueue, get. simpl.
  by rewrite Hslot.
Qed.

Lemma processQueue_runs queue :
  readSlot (queueSlot w) = PArray queue ->
  queue <> [] ->
  exists processed failures,
    processQueue env w
    = (Normal (RSummary processed failures
                 (Z.of_nat (length (List.filter is_pending (swept env queue))))),
       after_run env queue w).
Proof using Hidle Hauth.
  intros Hslot Hne. unfold processQueue. rewrite Hidle, Hauth. simpl.
  unfold bind at 1. unfold modify at 1. unfold try_finally, try_catch.
  unfold bind at 1. unfold getQueue, get. simpl. rewrite Hslot.
  unfold bind at 1. simpl. unfold ret at 1.
  destruct queue as [| item rest]; [done |].
  change (length (item :: rest) =? 0)%nat with false. cbv iota.
  destruct (forEachItem_imap env (item :: rest) 0 (0, 0) (set_isProcessing true w))
    as (counts & Hloop).
  exists (fst counts), (snd counts).
  unfold bind at 1. rewrite Hloop. simpl fst. simpl snd.
  unfold after_run, swept, passed, bind, saveQueue, modify, ret.
  destruct (setItemOk env); done.
Qed.

End Started.

(** What a run that is not skipped leaves in the store: the swept pass,
    or what was there before (empty queue, refused write). *)
Lemma stored_after_run env w queue :
  isProcessing w = false ->
  isAuthenticated w = true ->
  readSlot (queueSlot w) = PArray queue ->
  readSlot (queueSlot (snd (processQueue env w))) = PArray (swept env queue) \/
  readSlot (queueSlot (snd (processQueue env w))) = PArray queue.
Proof.
  intros Hidle Hauth Hq. destruct queue as [| item rest].
  - right. by rewrite (processQueue_empty env w Hidle Hauth Hq).
  - destruct (processQueue_runs env w Hidle Hauth (item :: rest) Hq)
      as (p & f & Hrun); [done |].
    rewrite Hrun. unfold after_run. destruct (setItemOk env); simpl; [by left | by right].
Qed.

Lemma attempted_after_run env w queue :
  isProcessing w = false ->
  isAuthenticated w = true ->
  readSlot (queueSlot w) = PArray queue ->
  attempted (snd (processQueue env w))
  = attempted w ++ map id (List.filter not_completed queue).
Proof.
  intros Hidle Hauth Hq. destruct queue as [| item rest].
  - rewrite (processQueue_empty env w Hidle Hauth Hq). simpl. by rewrite app_nil_r.
  - destruct (processQueue_runs env w Hidle Hauth (item :: rest) Hq)
      as (p & f & Hrun); [done |].
    rewrite Hrun. unfold after_run. by destruct (setItemOk env).
Qed.

(** ** Enqueueing *)

Lemma queueOperation_array env resource operation data w queue :
  readSlot (queueSlot w) = PArray queue ->
  queueOperation env resource operation data w
  = (Normal (queuedResponse (newItem env resource operation data)),
     let w1 := if setItemOk env
               then set_queueSlot
                      (Holds (PArray (queue ++ [newItem env resource operation data]))) w
               else w in
     if networkListenerActive w1 then w1 else addOnlineListener w1).
Proof.
  intros Hslot.
  unfold queueOperation, try_catch, bind, getQueue, get, push, saveQueue,
    setupNetworkListener, modify, ret. simpl.
  rewrite Hslot. simpl. by destruct (setItemOk env).
Qed.

Lemma queueOperation_nonarray env resource operation data w :
  queueSlot w = Holds PNonArray ->
  queueOperation env resource operation data w
  = (Thrown "Failed to queue operation for offline processing", w).
Proof.
  intros Hslot.
  unfold queueOperation, try_catch, bind, getQueue, get, push, throw. simpl.
  by rewrite Hslot.
Qed.

Lemma readSlot_cases (s : Slot) :
  s = Holds PNonArray \/ exists queue, readSlot s = PArray queue.
Proof. destruct s as [| | [queue |]]; simpl; eauto. Qed.

(** C10. Whenever [queueOperation] returns, the object returned has
    [success: true] and [offline: true] and carries the new queue item
    under [queuedOperation] (and its id under [id]); no item has been
    dispatched and no remote call issued by then, so the caller sees a
    success-shaped answer for an operation that was not performed. *)
Theorem queueOperation_success_shaped env resource operation data w response w' :
  queueOperation env resource operation data w = (Normal response, w') ->
  member "success" response = Some (JBool true) /\
  member "offline" response = Some (JBool true) /\
  member "queuedOperation" response
    = Some (item_json (newItem env resource operation data)) /\
  member "id" response = Some (JStr (generateId env)) /\
  status (newItem env resource operation data) = pending /\
  attempted w' = attempted w /\
  calls w' = calls w.
Proof.
  intros Hrun.
  destruct (readSlot_cases (queueSlot w)) as [Hbad | (queue & Hq)].
  - rewrite (queueOperation_nonarray _ _ _ _ _ Hbad) in Hrun. discriminate.
  - rewrite (queueOperation_array _ _ _ _ _ _ Hq) in Hrun.
    injection Hrun as <- <-.
    repeat split; try reflexivity;
      destruct (setItemOk env); simpl;
      destruct (networkListenerActive w); reflexivity.
Qed.

Lemma queueOperation_success_shaped_witness :
  let response := queuedResponse (newItem env_online "reports" "create" report_payload) in
  let w := world_with Absent false in
  let w' := snd (queueOperation env_online "reports" "create" report_payload w) in
  member "success" response = Some (JBool true) /\
  member "offline" response = Some (JBool true) /\
  member "queuedOperation" response
    = Some (item_json (newItem env_online "reports" "create" report_payload)) /\
  member "id" response = Some (JStr (generateId env_online)) /\
  status (newItem env_online "reports" "create" report_payload) = pending /\
  attempted w' = attempted w /\
  calls w' = calls w.
Proof.
  apply (queueOperation_success_shaped env_online "reports" "create" report_payload
           (world_with Absent false)).
  reflexivity.
Defined.

(** The item so queued may never succeed: with the network down it ends
    ['failed'] after three runs. *)
Example queued_item_may_never_succeed :
  let w1 := snd (queueOperation env_offline "reports" "create" report_payload
                   (world_with Absent false)) in
  let w2 := snd (processQueue env_offline w1) in
  let w3 := snd (processQueue env_offline w2) in
  let w4 := snd (processQueue env_offline w3) in
  map status (match readSlot (queueSlot w4) with PArray q => q | PNonArray => [] end)
  = [failed].
Proof. vm_compute. reflexivity. Qed.

(** C2 does not hold of the code: with a store that refuses the write,
    [queueOperation] throws nothing, although its own [catch] means to
    report a failure to queue; [saveQueue] has swallowed the error
    before. *)
Lemma write_failure_not_propagated :
  setItemOk env_store_full = false /\
  ~ exists e,
      fst (queueOperation env_store_full "reports" "create" report_payload
             (world_with (Holds (PArray [item_a])) false))
      = Thrown e.
Proof.
  split; [reflexivity |]. intros [e He]. vm_compute in He. discriminate.
Qed.

(** What the code does instead, on every input: when the write of the
    updated collection fails, [saveQueue] swallows the error,
    [queueOperation] still returns its success-shaped object and the slot
    keeps what it held, so the new item is persisted nowhere and the
    caller is not told. *)
Theorem write_failure_is_swallowed env resource operation data w queue :
  readSlot (queueSlot w) = PArray queue ->
  setItemOk env = false ->
  exists w',
    queueOperation env resource operation data w
    = (Normal (queuedResponse (newItem env resource operation data)), w') /\
    member "success" (queuedResponse (newItem env resource operation data))
    = Some (JBool true) /\
    queueSlot w' = queueSlot w.
Proof.
  intros Hq Hfull. rewrite (queueOperation_array _ _ _ _ _ _ Hq), Hfull.
  eexists. split; [reflexivity |]. split; [reflexivity |].
  simpl. by destruct (networkListenerActive w).
Qed.

Lemma write_failure_is_swallowed_witness :
  exists w',
    queueOperation env_store_full "reports" "create" report_payload
      (world_with (Holds (PArray [item_a])) false)
    = (Normal (queuedResponse (newItem env_store_full "reports" "create" report_payload)), w') /\
    member "success" (queuedResponse (newItem env_store_full "reports" "create" report_payload))
    = Some (JBool true) /\
    queueSlot w' = Holds (PArray [item_a]).
Proof.
  apply (write_failure_is_swallowed env_store_full "reports" "create" report_payload
           (world_with (Holds (PArray [item_a])) false) [item_a]); reflexivity.
Defined.

(** C3, as stated, fails on four counts: what [queueOperation] returns
    is not the queue item (it is an object that embeds it); the id need
    not be fresh (here the store already holds an item with the id that
    is generated); nothing is persisted when the store refuses the
    write; and on a stored value that is no array the call throws and
    stores nothing. *)
Lemma enqueue_not_as_specified :
  (~ exists item,
       fst (queueOperation env_online "reports" "create" report_payload
              (world_with Absent false))
       = Normal (item_json item)) /\
  (let earlier := newItem env_online "events" "register" JNull in
   let w := world_with (Holds (PArray [earlier])) false in
   In (id (newItem env_online "reports" "create" report_payload))
      (map id [earlier]) /\
   queueSlot (snd (queueOperation env_online "reports" "create" report_payload w))
   = Holds (PArray [earlier; newItem env_online "reports" "create" report_payload])) /\
  (let w := world_with (Holds (PArray [item_a])) false in
   queueSlot (snd (queueOperation env_store_full "reports" "create" report_payload w))
   = Holds (PArray [item_a])) /\
  (let w := world_with (Holds PNonArray) false in
   queueOperation env_online "reports" "create" report_payload w
   = (Thrown "Failed to queue operation for offline processing", w)).
Proof.
  split; [| split; [| split]].
  - intros [item H]. vm_compute in H. discriminate.
  - vm_compute. split; [left |]; reflexivity.
  - vm_compute. reflexivity.
  - vm_compute. reflexivity.
Qed.

(** C3, amended. For every call [queueOperation(resource, operation,
    data)] on a store that reads as an array and accepts the write, a
    queue item is created with status ['pending'], no attempts, the id
    that [generateId] draws (not checked against the ids in use) and the
    current time; the collection persisted afterwards is the previous one
    with the item appended at its end; and the value returned is the
    response object that carries the item under [queuedOperation] and its
    id under [id]. *)
Theorem enqueue_appends_pending_item env res op payload w queue :
  readSlot (queueSlot w) = PArray queue ->
  setItemOk env = true ->
  exists item w',
    queueOperation env res op payload w = (Normal (queuedResponse item), w') /\
    status item = pending /\
    attempts item = 0 /\
    lastError item = None /\
    id item = generateId env /\
    timestamp item = now env /\
    (resource item, operation item, data item) = (res, op, payload) /\
    queueSlot w' = Holds (PArray (queue ++ [item])) /\
    member "queuedOperation" (queuedResponse item) = Some (item_json item) /\
    member "id" (queuedResponse item) = Some (JStr (id item)).
Proof.
  intros Hq Hok. exists (newItem env res op payload). eexists.
  split; [apply (queueOperation_array _ _ _ _ _ _ Hq) |].
  rewrite Hok. repeat split.
  simpl. by destruct (networkListenerActive w).
Qed.

Lemma enqueue_appends_pending_item_witness :
  exists item w',
    queueOperation env_online "events" "register" (JObj [ ("eventId", JStr "ev7") ])
      (world_with (Holds (PArray [item_a; item_b])) false)
    = (Normal (queuedResponse item), w') /\
    status item = pending /\
    attempts item = 0 /\
    lastError item = None /\
    id item = generateId env_online /\
    timestamp item = now env_online /\
    (resource item, operation item, data item)
    = ("events", "register", JObj [ ("eventId", JStr "ev7") ]) /\
    queueSlot w' = Holds (PArray ([item_a; item_b] ++ [item])) /\
    member "queuedOperation" (queuedResponse item) = Some (item_json item) /\
    member "id" (queuedResponse item) = Some (JStr (id item)).
Proof.
  apply (enqueue_appends_pending_item env_online "events" "register"
           (JObj [ ("eventId", JStr "ev7") ])
           (world_with (Holds (PArray [item_a; item_b])) false) [item_a; item_b]);
    reflexivity.
Defined.

(** ** Identifiers *)

(** The id keeps at most nine characters of the draw after its ["0."]. *)
Example generateId_samples :
  let draw r := mkEnv 0 r true no_import_error (always Resolved) type_error_text in
  generateId (draw "0.4fzyo82mvyr") = "queue_4fzyo82mv" /\
  generateId (draw "0.i") = "queue_i" /\
  generateId (draw "0") = "queue_".
Proof. vm_compute. repeat split; reflexivity. Qed.

Lemma append_inj_l (p a b : string) : p +:+ a = p +:+ b -> a = b.
Proof. induction p as [| c p IH]; simpl; [done |]. intros H. injection H as H. auto. Qed.

Lemma created_id_eq_iff r1 r2 : id (created r1) = id (created r2) <-> suffix r1 = suffix r2.
Proof.
  unfold created, suffix, newItem, generateId. simpl. split.
  - apply append_inj_l.
  - by intros ->.
Qed.

Lemma NoDup_map_iff {A B C : Type} (f : A -> B) (g : A -> C) (l : list A) :
  (forall x y, f x = f y <-> g x = g y) ->
  NoDup (map f l) <-> NoDup (map g l).
Proof.
  intros Hfg. induction l as [| x l IH]; simpl.
  - split; intros _; constructor.
  - rewrite !NoDup_cons, IH, !list_elem_of_In, !in_map_iff.
    split; intros [Hx Hl]; (split; [| done]); intros (y & Hy & Hin);
      apply Hx; exists y; (split; [| done]); by apply Hfg.
Qed.

Lemma enqueueAll_stored requests : forall w queue,
  readSlot (queueSlot w) = PArray queue ->
  Forall (fun r => setItemOk (req_env r) = true) requests ->
  readSlot (queueSlot (snd (enqueueAll requests w)))
  = PArray (queue ++ map created requests).
Proof.
  induction requests as [| r rest IH]; intros w queue Hq Hok; simpl.
  - by rewrite app_nil_r.
  - apply Forall_cons in Hok as [Hr Hrest].
    rewrite (queueOperation_array _ _ _ _ _ _ Hq), Hr.
    match goal with |- context [enqueueAll rest ?w1] =>
      specialize (IH w1 (queue ++ [created r])); destruct (enqueueAll rest w1) as [cs w2]
    end.
    simpl in *. rewrite IH; [by rewrite <- app_assoc | | done].
    by destruct (networkListenerActive w).
Qed.

(** C4, as stated, fails: two enqueues whose random draws agree create
    two items with one id. *)
Lemma duplicate_ids_possible :
  let r1 := mkRequest env_online "reports" "create" report_payload in
  let r2 := mkRequest env_online "events" "register" JNull in
  let w := snd (enqueueAll [r1; r2] (world_with Absent false)) in
  exists q1 q2,
    readSlot (queueSlot w) = PArray [q1; q2] /\ q1 <> q2 /\ id q1 = id q2.
Proof. vm_compute. do 2 eexists. split; [reflexivity |]. split; [discriminate | reflexivity]. Qed.

(** C4, amended. Ids are as distinct as the random draws behind them: two
    items get the same id exactly when their draws agree on the nine
    characters [substr(2, 9)] keeps, so the items created in a store
    lifetime have pairwise distinct ids if and only if these suffixes are
    pairwise distinct; nothing in [queueOperation] rules a repeat out. *)
Theorem ids_distinct_iff_draws_distinct requests w :
  queueSlot w = Absent ->
  Forall (fun r => setItemOk (req_env r) = true) requests ->
  exists queue,
    readSlot (queueSlot (snd (enqueueAll requests w))) = PArray queue /\
    map id queue = map (fun r => generateId (req_env r)) requests /\
    (NoDup (map id queue) <-> NoDup (map suffix requests)).
Proof.
  intros Hw Hok. exists (map created requests).
  split; [| split].
  - apply (enqueueAll_stored requests w []); [by rewrite Hw | done].
  - by rewrite map_map.
  - rewrite map_map. apply NoDup_map_iff. apply created_id_eq_iff.
Qed.

Lemma ids_distinct_iff_draws_distinct_witness :
  let r1 := mkRequest env_online "reports" "create" report_payload in
  let r2 := mkRequest
              (mkEnv 1700000000500 "0.9k2xw0q7c1b" true no_import_error (always Resolved)
                     type_error_text)
              "events" "register" JNull in
  exists queue,
    readSlot (queueSlot (snd (enqueueAll [r1; r2] (world_with Absent false)))) = PArray queue /\
    map id queue = map (fun r => generateId (req_env r)) [r1; r2] /\
    (NoDup (map id queue) <-> NoDup (map suffix [r1; r2])).
Proof.
  intros r1 r2.
  apply (ids_distinct_iff_draws_distinct [r1; r2] (world_with Absent false)).
  - reflexivity.
  - repeat constructor.
Defined.

(** ** The per-item pass *)

Lemma identity_settle env i item : identity (settle env i item) = identity item.
Proof.
  unfold settle. destruct (verdict env i item); [done |]. by case_match.
Qed.

Lemma identity_step env i item : identity (step env i item) = identity item.
Proof. unfold step. case_decide; [done | apply identity_settle]. Qed.


Lemma lookup_passed env queue i item :
  queue !! i = Some item -> passed env queue !! i = Some (step env i item).
Proof. intros H. unfold passed. by rewrite list_lookup_imap, H. Qed.

(** The loop over the queue never throws, whatever the executors do: it
    returns an array of the same length, has handed every item that was
    not ['completed'] to the dispatcher, in order, and has left every item
    according to its own outcome alone. *)
Lemma loop_survives_item_failures env queue counts w :
  exists queue' counts' w',
    forEachItem env 0 queue counts w = (Normal (queue', counts'), w') /\
    length queue' = length queue /\
    attempted w' = attempted w ++ map id (List.filter not_completed queue) /\
    forall i item,
      queue !! i = Some item ->
      exists item',
        queue' !! i = Some item' /\
        identity item' = identity item /\
        (status item = completed -> item' = item) /\
        (status item <> completed ->
         forall wi,
           match fst (processQueueItem env i item wi) with
           | Normal _ => item' = set_status completed item
           | Thrown e =>
               attempts item' = attempts item + 1 /\
               lastError item' = Some e /\
               status item' = (if 3 <=? attempts item + 1 then failed else status item)
           end).
Proof.
  destruct (forEachItem_imap env queue 0 counts w) as (counts' & Hloop).
  do 3 eexists. split; [exact Hloop |].
  split; [apply length_imap |]. split; [done |].
  intros i item Hi. exists (step env i item).
  split; [by rewrite list_lookup_imap, Hi |].
  split; [apply identity_step |].
  unfold step. split; intros Hs; [by rewrite decide_True |].
  rewrite decide_False by done. intros wi.
  rewrite processQueueItem_log. simpl. unfold settle.
  destruct (verdict env i item) as [[] | e]; [done |].
  simpl. by case_match.
Qed.

(** C8. Within a processing run the failure of one item's executor never
    aborts the batch: a run that reaches the loop returns its summary
    (never an error report on account of an item), has handed every item
    that was not ['completed'] to the dispatcher, in queue order, and has
    left every item according to its own outcome alone. An item whose
    dispatch throws has its [attempts] incremented and the message
    recorded as [lastError] (and is marked ['failed'] from the third
    failure on); an item whose dispatch resolves is marked ['completed'];
    and what the run saves, when the store accepts the write, is the sweep
    of the items so updated. *)
Theorem item_failure_does_not_abort_run env w queue :
  isProcessing w = false ->
  isAuthenticated w = true ->
  readSlot (queueSlot w) = PArray queue ->
  queue <> [] ->
  exists afterPass counts w1 processed failures remaining,
    forEachItem env 0 queue (0, 0) (set_isProcessing true w)
    = (Normal (afterPass, counts), w1) /\
    fst (processQueue env w) = Normal (RSummary processed failures remaining) /\
    attempted (snd (processQueue env w))
    = attempted w ++ map id (List.filter not_completed queue) /\
    length afterPass = length queue /\
    (setItemOk env = true ->
     queueSlot (snd (processQueue env w))
     = Holds (PArray (List.filter (keep (now env - DAY)) afterPass))) /\
    forall i item,
      queue !! i = Some item ->
      exists item',
        afterPass !! i = Some item' /\
        identity item' = identity item /\
        (status item = completed -> item' = item) /\
        (status item <> completed ->
         forall wi,
           match fst (processQueueItem env i item wi) with
           | Normal _ => item' = set_status completed item
           | Thrown e =>
               attempts item' = attempts item + 1 /\
               lastError item' = Some e /\
               status item' = (if 3 <=? attempts item + 1 then failed else status item)
           end).
Proof.
  intros Hflag Hauth Hq Hne.
  destruct (processQueue_runs env w Hflag Hauth queue Hq Hne) as (p & f & Hrun).
  destruct (forEachItem_imap env queue 0 (0, 0) (set_isProcessing true w)) as (counts & Hloop).
  change (imap (fun j => step env (0 + j)%nat) queue) with (passed env queue) in Hloop.
  exists (passed env queue), counts. do 4 eexists.
  split; [exact Hloop |]. split; [by rewrite Hrun |].
  split; [apply (attempted_after_run env w queue Hflag Hauth Hq) |].
  split; [unfold passed; apply length_imap |]. split.
  { intros Hok. rewrite Hrun. unfold after_run. by rewrite Hok. }
  intros i item Hi. exists (step env i item).
  split; [by apply lookup_passed |].
  split; [apply identity_step |].
  unfold step. split; intros Hs; [by rewrite decide_True |].
  rewrite decide_False by done. intros wi.
  rewrite processQueueItem_log. simpl. unfold settle.
  destruct (verdict env i item) as [[] | e]; [done |].
  simpl. by case_match.
Qed.

Lemma item_failure_does_not_abort_run_witness :
  let env := mkEnv 1700000000000 "0.4fzyo82mvyr" true no_import_error
               (fun i _ => if (i =? 1)%nat then Rejected "Failed to fetch" else Resolved)
               type_error_text in
  let queue := [item_c; item_b; item_a] in
  let w := world_with (Holds (PArray queue)) false in
  exists afterPass counts w1 processed failures remaining,
    forEachItem env 0 queue (0, 0) (set_isProcessing true w)
    = (Normal (afterPass, counts), w1) /\
    fst (processQueue env w) = Normal (RSummary processed failures remaining) /\
    attempted (snd (processQueue env w))
    = attempted w ++ map id (List.filter not_completed queue) /\
    length afterPass = length queue /\
    (setItemOk env = true ->
     queueSlot (snd (processQueue env w))
     = Holds (PArray (List.filter (keep (now env - DAY)) afterPass))) /\
    forall i item,
      queue !! i = Some item ->
      exists item',
        afterPass !! i = Some item' /\
        identity item' = identity item /\
        (status item = completed -> item' = item) /\
        (status item <> completed ->
         forall wi,
           match fst (processQueueItem env i item wi) with
           | Normal _ => item' = set_status completed item
           | Thrown e =>
               attempts item' = attempts item + 1 /\
               lastError item' = Some e /\
               status item' = (if 3 <=? attempts item + 1 then failed else status item)
           end).
Proof.
  intros env queue w.
  apply (item_failure_does_not_abort_run env w queue);
    [reflexivity | reflexivity | reflexivity | discriminate].
Defined.

(** Three items, two of which fail (an unknown resource, a network
    error): all three are attempted and the third completes. *)
Example failures_do_not_stop_the_batch :
  let env := mkEnv 1700000000000 "0.4fzyo82mvyr" true no_import_error
               (fun i _ => if (i =? 1)%nat then Rejected "Failed to fetch" else Resolved)
               type_error_text in
  let w := snd (processQueue env (world_with (Holds (PArray [item_c; item_b; item_a])) false)) in
  attempted w = [id item_c; id item_b; id item_a] /\
  (match readSlot (queueSlot w) with
   | PArray q => map (fun item => (status item, attempts item, lastError item)) q
   | PNonArray => []
   end)
  = [ (pending, 1, Some "Unknown resource: widgets");
      (pending, 2, Some "Failed to fetch");
      (completed, 0, None) ].
Proof. vm_compute. split; reflexivity. Qed.

(** ** Terminal failure *)

(** C1 does not hold of the code: the loop skips ['completed'] items only,
    so an item already ['failed'] after three attempts is dispatched again
    by the next run. If the call rejects, its [attempts] reaches 4 (and
    the run counts it as failed once more); if the call resolves, its
    status becomes ['completed']. *)
Theorem failed_item_is_attempted_again :
  let w := world_with (Holds (PArray [item_exhausted])) false in
  processQueue env_offline w
  = (Normal (RSummary 0 1 0),
     mkWorld (Holds (PArray [ mkItem "queue_p3q4r5s6t" "reports" "create" report_payload
                                1699999300000 4 failed (Some "Failed to fetch") ]))
             (Some "token") false true 1 [ "queue_p3q4r5s6t" ] [ submitReport report_payload ])
  /\
  processQueue env_online w
  = (Normal (RSummary 1 0 0),
     mkWorld (Holds (PArray [ mkItem "queue_p3q4r5s6t" "reports" "create" report_payload
                                1699999300000 3 completed (Some "Failed to fetch") ]))
             (Some "token") false true 1 [ "queue_p3q4r5s6t" ] [ submitReport report_payload ]).
Proof. vm_compute. split; reflexivity. Qed.

(** The specification's test of an unknown operation: the item is never
    ['completed']; three runs make it ['failed'], and the fourth run
    dispatches it a fourth time. *)
Example unknown_operation_runs :
  let stored w := match readSlot (queueSlot w) with
                  | PArray q => map (fun item => (status item, attempts item, lastError item)) q
                  | PNonArray => []
                  end in
  let w0 := world_with (Holds (PArray [item_c])) false in
  let w1 := snd (processQueue env_online w0) in
  let w2 := snd (processQueue env_online w1) in
  let w3 := snd (processQueue env_online w2) in
  let w4 := snd (processQueue env_online w3) in
  stored w1 = [ (pending, 1, Some "Unknown resource: widgets") ] /\
  stored w2 = [ (pending, 2, Some "Unknown resource: widgets") ] /\
  stored w3 = [ (failed, 3, Some "Unknown resource: widgets") ] /\
  stored w4 = [ (failed, 4, Some "Unknown resource: widgets") ] /\
  length (attempted w4) = 4%nat /\
  calls w4 = [].
Proof. vm_compute. repeat split; reflexivity. Qed.

(** Nor is the sample special: whatever the queue, a run that reaches the
    loop dispatches each of its ['failed'] items. *)
Lemma failed_items_are_dispatched env w queue item :
  isProcessing w = false ->
  isAuthenticated w = true ->
  readSlot (queueSlot w) = PArray queue ->
  In item queue ->
  status item = failed ->
  exists before later,
    attempted (snd (processQueue env w)) = attempted w ++ before ++ id item :: later.
Proof.
  intros Hidle Hauth Hq Hin Hs.
  rewrite (attempted_after_run env w queue Hidle Hauth Hq).
  assert (Hdisp : In (id item) (map id (List.filter not_completed queue))).
  { apply in_map, filter_In. split; [done |]. unfold not_completed.
    rewrite bool_decide_eq_false_2; [done |]. by rewrite Hs. }
  apply in_split in Hdisp as (before & later & ->). by exists before, later.
Qed.


(** ** Skipped runs *)

(** C5. A run requested while [isProcessing] is set, or while the caller
    is not authenticated, returns [{processed: 0, skipped: true}] and
    leaves the world exactly as it found it: the persisted queue is the
    same (no item changed, added or removed), nothing was dispatched and
    no remote call was issued. *)
Theorem skipped_run_changes_nothing env w :
  isProcessing w = true \/ isAuthenticated w = false ->
  processQueue env w = (Normal (RSkipped 0 true), w) /\
  queueSlot (snd (processQueue env w)) = queueSlot w /\
  attempted (snd (processQueue env w)) = attempted w /\
  calls (snd (processQueue env w)) = calls w.
Proof.
  intros H. by rewrite (processQueue_skipped env w H).
Qed.

Lemma skipped_run_changes_nothing_witness :
  let busy := world_with (Holds (PArray [item_a; item_b])) true in
  let anonymous := world_logged_out (Holds (PArray [item_a; item_b])) in
  (processQueue env_online busy = (Normal (RSkipped 0 true), busy) /\
   queueSlot (snd (processQueue env_online busy)) = queueSlot busy /\
   attempted (snd (processQueue env_online busy)) = attempted busy /\
   calls (snd (processQueue env_online busy)) = calls busy) /\
  (processQueue env_online anonymous = (Normal (RSkipped 0 true), anonymous) /\
   queueSlot (snd (processQueue env_online anonymous)) = queueSlot anonymous /\
   attempted (snd (processQueue env_online anonymous)) = attempted anonymous /\
   calls (snd (processQueue env_online anonymous)) = calls anonymous).
Proof.
  split.
  - apply (skipped_run_changes_nothing env_online
             (world_with (Holds (PArray [item_a; item_b])) true)).
    left. reflexivity.
  - apply (skipped_run_changes_nothing env_online
             (world_logged_out (Holds (PArray [item_a; item_b])))).
    right. reflexivity.
Defined.

(** ** The in-progress flag *)

(** C9, as stated, fails: a run requested while another one is in
    progress returns with [isProcessing] still set. *)
Lemma skipped_run_leaves_flag_set :
  let busy := world_with (Holds (PArray [item_a])) true in
  fst (processQueue env_online busy) = Normal (RSkipped 0 true) /\
  isProcessing (snd (processQueue env_online busy)) = true.
Proof. vm_compute. split; reflexivity. Qed.

(** C9, amended. Every run requested while no other run is in progress
    returns with [isProcessing] cleared, on each of its exit paths: the
    skip for a missing authentication, the empty queue, the completed
    pass and the internal error. (A run skipped because the flag was set
    leaves it set: the flag belongs to the run in progress.) *)
Theorem run_clears_flag env w :
  isProcessing w = false ->
  isProcessing (snd (processQueue env w)) = false.
Proof.
  intros Hidle. destruct (isAuthenticated w) eqn:Hauth.
  - destruct (readSlot_cases (queueSlot w)) as [Hbad | (queue & Hq)].
    + by rewrite (processQueue_error env w Hidle Hauth Hbad).
    + destruct queue as [| item rest].
      * by rewrite (processQueue_empty env w Hidle Hauth Hq).
      * destruct (processQueue_runs env w Hidle Hauth (item :: rest) Hq)
          as (processed & failures & Hrun); [done |].
        rewrite Hrun. unfold after_run. simpl. by destruct (setItemOk env).
  - rewrite (processQueue_skipped env w); [done | by right].
Qed.

Lemma run_clears_flag_witness :
  isProcessing (snd (processQueue env_offline (world_with (Holds PNonArray) false))) = false /\
  isProcessing (snd (processQueue env_offline (world_with (Holds (PArray [item_a])) false)))
  = false.
Proof.
  split.
  - apply (run_clears_flag env_offline (world_with (Holds PNonArray) false)). reflexivity.
  - apply (run_clears_flag env_offline (world_with (Holds (PArray [item_a])) false)).
    reflexivity.
Defined.

(** The internal-error path: a stored value that is no array makes the
    run report [{error}], touch nothing, and still clear the flag. *)
Example run_on_non_array :
  processQueue env_online (world_with (Holds PNonArray) false)
  = (Normal (RError type_error_text), world_with (Holds PNonArray) false).
Proof. vm_compute. reflexivity. Qed.

(** ** The expiry sweep *)

Lemma keep_expired sweepTime item : keep (sweepTime - DAY) item = negb (expired sweepTime item).
Proof.
  unfold keep, expired. destruct (bool_decide (status item = completed)); simpl; [| done].
  destruct (Z.ltb_spec (sweepTime - DAY) (timestamp item)),
           (Z.leb_spec DAY (sweepTime - timestamp item)); simpl; try done; lia.
Qed.

(** C6, as stated, fails twice. A ['completed'] item that is exactly 24
    hours old at the sweep is not older than 24 hours, yet the run drops
    it. And when the store refuses the write, the swept collection is not
    persisted: a ['completed'] item 25 hours old is still in the store
    after the run. *)
Lemma sweep_not_as_specified :
  (let day_old := item_done (now env_online - DAY) in
   let w := world_with (Holds (PArray [day_old; item_a])) false in
   sweep_as_specified (now env_online) (passed env_online [day_old; item_a])
   = [day_old; set_status completed item_a] /\
   queueSlot (snd (processQueue env_online w))
   = Holds (PArray [set_status completed item_a])) /\
  (let stale := item_done (now env_store_full - 25 * 60 * 60 * 1000) in
   let w := world_with (Holds (PArray [stale])) false in
   sweep_as_specified (now env_store_full) (passed env_store_full [stale]) = [] /\
   queueSlot (snd (processQueue env_store_full w)) = Holds (PArray [stale])).
Proof. vm_compute. repeat split; reflexivity. Qed.

(** C6, amended. After the per-item pass of every run that reaches it,
    the sweep removes exactly the items whose status is ['completed'] and
    whose timestamp lies 24 hours or more before the sweep time; every
    other item of the pass (['pending'], ['failed'], or ['completed'] less
    than 24 hours ago) is retained, in order; and the result is what the
    store holds afterwards whenever the store accepts the write. *)
Theorem sweep_removes_completed_day_old env w queue :
  isProcessing w = false ->
  isAuthenticated w = true ->
  readSlot (queueSlot w) = PArray queue ->
  queue <> [] ->
  setItemOk env = true ->
  exists afterPass counts w1,
    forEachItem env 0 queue (0, 0) (set_isProcessing true w)
    = (Normal (afterPass, counts), w1) /\
    queueSlot (snd (processQueue env w))
    = Holds (PArray (List.filter (fun item => negb (expired (now env) item)) afterPass)) /\
    forall item,
      In item afterPass ->
      (In item (List.filter (fun item => negb (expired (now env) item)) afterPass)
       <-> ~ (status item = completed /\ timestamp item <= now env - DAY)).
Proof.
  intros Hidle Hauth Hq Hne Hok.
  destruct (forEachItem_imap env queue 0 (0, 0) (set_isProcessing true w)) as (counts & Hloop).
  destruct (processQueue_runs env w Hidle Hauth queue Hq Hne) as (p & f & Hrun).
  do 3 eexists. split; [exact Hloop |]. split.
  - rewrite Hrun. unfold after_run. rewrite Hok. simpl. do 2 f_equal.
    unfold swept, passed. apply filter_ext. intros item. apply keep_expired.
  - intros item Hin. rewrite filter_In. unfold expired.
    destruct (decide (status item = completed)) as [Hs | Hs].
    + rewrite bool_decide_eq_true_2 by done. simpl.
      destruct (Z.leb_spec DAY (now env - timestamp item)); simpl.
      * split; [intros [_ ?]; done | intros Hn; exfalso; apply Hn; split; [done | lia]].
      * split; [intros _ [_ ?]; lia | done].
    + rewrite bool_decide_eq_false_2 by done. simpl.
      split; [intros _ [? _]; done | done].
Qed.

Lemma sweep_removes_completed_day_old_witness :
  let queue := [item_done (now env_online - DAY); item_done (now env_online - DAY + 1); item_b] in
  let w := world_with (Holds (PArray queue)) false in
  exists afterPass counts w1,
    forEachItem env_online 0 queue (0, 0) (set_isProcessing true w)
    = (Normal (afterPass, counts), w1) /\
    queueSlot (snd (processQueue env_online w))
    = Holds (PArray (List.filter (fun item => negb (expired (now env_online) item)) afterPass)) /\
    forall item,
      In item afterPass ->
      (In item (List.filter (fun item => negb (expired (now env_online) item)) afterPass)
       <-> ~ (status item = completed /\ timestamp item <= now env_online - DAY)).
Proof.
  intros queue w.
  apply (sweep_removes_completed_day_old env_online w queue);
    [reflexivity | reflexivity | reflexivity | discriminate | reflexivity].
Defined.

(** The two cases of the specification's own test: 25 hours old goes, one
    hour old stays. *)
Example sweep_25h_and_1h :
  let old := item_done (now env_online - 25 * 60 * 60 * 1000) in
  let recent := item_done (now env_online - 60 * 60 * 1000) in
  queueSlot (snd (processQueue env_online (world_with (Holds (PArray [old; recent])) false)))
  = Holds (PArray [recent]).
Proof. vm_compute. reflexivity. Qed.

(** ** Order *)


Lemma keep_not_completed oneDayAgo item :
  status item <> completed -> keep oneDayAgo item = true.
Proof. intros Hs. unfold keep. by rewrite bool_decide_eq_false_2. Qed.



(** Enqueueing keeps what is stored and adds at the end only. *)
Lemma enqueue_keeps_order env res op payload w queue :
  readSlot (queueSlot w) = PArray queue ->
  exists added,
    readSlot (queueSlot (snd (queueOperation env res op payload w))) = PArray (queue ++ added).
Proof.
  intros Hq. rewrite (queueOperation_array _ _ _ _ _ _ Hq).
  destruct (setItemOk env); simpl.
  - exists [newItem env res op payload]. by destruct (networkListenerActive w).
  - exists []. rewrite app_nil_r. by destruct (networkListenerActive w).
Qed.

(** The specification's test of first-in first-out processing: three items
    enqueued in a row and one run with every call resolving. *)
Example fifo_three_items :
  let enqueue ts r o d w :=
    snd (queueOperation
           (mkEnv ts "0.4fzyo82mvyr" true no_import_error (always Resolved) type_error_text)
           r o d w) in
  let w1 := enqueue 1 "reports" "create" report_payload (world_with Absent false) in
  let w2 := enqueue 2 "reports" "update" (JObj [ ("id", JNum 7) ]) w1 in
  let w3 := enqueue 3 "events" "register" (JObj [ ("eventId", JStr "ev42") ]) w2 in
  let run := processQueue
               (mkEnv 4 "0.4fzyo82mvyr" true no_import_error (always Resolved) type_error_text)
               w3 in
  fst run = Normal (RSummary 3 0 0) /\
  calls (snd run)
  = [ submitReport report_payload;
      updateReport (value (JNum 7)) (JObj [ ("id", JNum 7) ]);
      registerForEvent (value (JStr "ev42")) ] /\
  (match readSlot (queueSlot (snd run)) with
   | PArray q => map (fun item => (timestamp item, status item)) q
   | PNonArray => []
   end) = [ (1, completed); (2, completed); (3, completed) ].
Proof. vm_compute. repeat split; reflexivity. Qed.

(** * Further properties *)

(** ** Frames *)

Lemma set_isProcessing_idle w :
  isProcessing w = false ->
  set_isProcessing false (set_isProcessing true w) = w.
Proof. destruct w; simpl. intros ->. reflexivity. Qed.

(** In the model, where a dispatch changes the two logs only, a run
    leaves these four fields as they were. *)
Lemma processQueue_fields env w :
  let w' := snd (processQueue env w) in
  authToken w' = authToken w /\
  isProcessing w' = isProcessing w /\
  networkListenerActive w' = networkListenerActive w /\
  onlineListeners w' = onlineListeners w.
Proof.
  simpl. destruct (isProcessing w) eqn:Hflag.
  - rewrite (processQueue_skipped env w); [simpl; by rewrite Hflag | by left].
  - destruct (isAuthenticated w) eqn:Hauth.
    + destruct (readSlot_cases (queueSlot w)) as [Hbad | (queue & Hq)].
      * by rewrite (processQueue_error env w Hflag Hauth Hbad).
      * destruct queue as [| item rest].
        -- by rewrite (processQueue_empty env w Hflag Hauth Hq).
        -- destruct (processQueue_runs env w Hflag Hauth (item :: rest) Hq)
             as (p & f & Hrun); [done |].
           rewrite Hrun. unfold after_run. by destruct (setItemOk env).
    + rewrite (processQueue_skipped env w); [simpl; by rewrite Hflag | by right].
Qed.

Lemma stored_after_process env w :
  stored (snd (processQueue env w)) = stored w \/
  stored (snd (processQueue env w)) = swept env (stored w).
Proof.
  unfold stored. destruct (isProcessing w) eqn:Hflag.
  - left. rewrite (processQueue_skipped env w); [done | by left].
  - destruct (isAuthenticated w) eqn:Hauth.
    + destruct (readSlot_cases (queueSlot w)) as [Hbad | (queue & Hq)].
      * left. by rewrite (processQueue_error env w Hflag Hauth Hbad).
      * destruct (stored_after_run env w queue Hflag Hauth Hq) as [H | H];
          rewrite H, Hq; [by right | by left].
    + left. rewrite (processQueue_skipped env w); [done | by right].
Qed.

Lemma getQueueStatus_world env w : snd (getQueueStatus env w) = w.
Proof.
  unfold getQueueStatus, bind, getQueue, get, array_of. simpl.
  by destruct (readSlot (queueSlot w)).
Qed.

Lemma queueOperation_cases env resource operation data w :
  (queueSlot w = Holds PNonArray /\
   queueOperation env resource operation data w
   = (Thrown "Failed to queue operation for offline processing", w)) \/
  (exists queue,
     readSlot (queueSlot w) = PArray queue /\
     queueOperation env resource operation data w
     = (Normal (queuedResponse (newItem env resource operation data)),
        let w1 := if setItemOk env
                  then set_queueSlot
                         (Holds (PArray (queue ++ [newItem env resource operation data]))) w
                  else w in
        if networkListenerActive w1 then w1 else addOnlineListener w1)).
Proof.
  destruct (readSlot_cases (queueSlot w)) as [Hbad | (queue & Hq)].
  - left. split; [done | by apply queueOperation_nonarray].
  - right. exists queue. split; [done | by apply queueOperation_array].
Qed.

Lemma performAll_invariant (P : World -> Prop) ops :
  (forall op w, P w -> P (perform op w)) ->
  forall w, P w -> P (performAll ops w).
Proof.
  intros Hstep. unfold performAll.
  induction ops as [| op ops IH]; simpl; [done |]. intros w Hw. apply IH, Hstep, Hw.
Qed.

(** X1. [processQueue] reports [{processed: 0, skipped: true}] exactly
    when [isProcessing] is set or the caller is not authenticated (every
    other call reports an empty queue, a summary or an error), and it
    always returns with [isProcessing] as it found it: set when it was
    skipped for a run in progress, clear otherwise. *)
Theorem run_skipped_iff_busy_or_anonymous env w :
  (fst (processQueue env w) = Normal (RSkipped 0 true)
   <-> isProcessing w = true \/ isAuthenticated w = false) /\
  isProcessing (snd (processQueue env w)) = isProcessing w.
Proof.
  split; [| by destruct (processQueue_fields env w) as (_ & Hf & _)].
  split; [| intros H; by rewrite (processQueue_skipped env w H)].
  destruct (isProcessing w) eqn:Hflag; [by left |].
  destruct (isAuthenticated w) eqn:Hauth; [| by right].
  intros Hrun. exfalso.
  destruct (readSlot_cases (queueSlot w)) as [Hbad | (queue & Hq)].
  - by rewrite (processQueue_error env w Hflag Hauth Hbad) in Hrun.
  - destruct queue as [| item rest].
    + by rewrite (processQueue_empty env w Hflag Hauth Hq) in Hrun.
    + destruct (processQueue_runs env w Hflag Hauth (item :: rest) Hq)
        as (p & f & Hsum); [done |].
      by rewrite Hsum in Hrun.
Qed.

(** ** The network listener *)

Lemma perform_listener op w :
  onlineListeners w = (if networkListenerActive w then 1 else 0)%nat ->
  onlineListeners (perform op w)
  = (if networkListenerActive (perform op w) then 1 else 0)%nat.
Proof.
  intros Hw. destruct op as [env res op payload | env | env | online]; simpl.
  - destruct (queueOperation_cases env res op payload w) as [[_ H] | (queue & _ & H)];
      rewrite H; simpl; [done |].
    destruct (setItemOk env); simpl; destruct (networkListenerActive w) eqn:Ha; simpl;
      rewrite ?Ha; simpl; by rewrite Hw.
  - destruct (processQueue_fields env w) as (_ & _ & Hn & Hl). simpl in *.
    by rewrite Hn, Hl.
  - by rewrite getQueueStatus_world.
  - unfold initQueueManager, bind, setupNetworkListener, modify, ret. simpl.
    destruct (networkListenerActive w) eqn:Ha; simpl; rewrite ?Ha; by rewrite Hw.
Qed.

(** X2. The ['online'] listener is registered at most once: starting
    with no listener, after any sequence of [queueOperation],
    [processQueue], [getQueueStatus] and [initQueueManager] calls there is
    at most one listener on [window], and there is one exactly when
    [networkListenerActive] is set. *)
Theorem listener_registered_at_most_once ops w :
  networkListenerActive w = false ->
  onlineListeners w = 0%nat ->
  (onlineListeners (performAll ops w) <= 1)%nat /\
  (networkListenerActive (performAll ops w) = true
   <-> onlineListeners (performAll ops w) = 1%nat).
Proof.
  intros Ha Hl.
  assert (Hinv : onlineListeners (performAll ops w)
                 = (if networkListenerActive (performAll ops w) then 1 else 0)%nat).
  { apply (performAll_invariant
             (fun w => onlineListeners w = (if networkListenerActive w then 1 else 0)%nat)).
    - apply perform_listener.
    - by rewrite Ha, Hl. }
  rewrite Hinv. destruct (networkListenerActive (performAll ops w)); split; try lia; done.
Qed.

Lemma listener_registered_at_most_once_witness :
  let ops := [ OpInit true;
               OpQueue env_online "reports" "create" report_payload;
               OpInit false;
               OpQueue env_offline "events" "register" JNull;
               OpProcess env_online ] in
  let w := mkWorld Absent (Some "token") false false 0 [] [] in
  (onlineListeners (performAll ops w) <= 1)%nat /\
  (networkListenerActive (performAll ops w) = true
   <-> onlineListeners (performAll ops w) = 1%nat).
Proof.
  intros ops w. apply (listener_registered_at_most_once ops w); reflexivity.
Defined.

(** ** Coherent items *)

Lemma coherent_newItem env res op payload : coherent (newItem env res op payload).
Proof. unfold coherent; simpl. repeat split; try done; lia. Qed.

Lemma coherent_step env i item : coherent item -> coherent (step env i item).
Proof.
  intros (H0 & Hle & Hp & Hf). unfold step. case_decide as Hs; [done |].
  unfold settle. destruct (verdict env i item) as [[] | e]; unfold coherent; simpl.
  - repeat split; try done; apply Hle.
  - destruct (Z.leb_spec 3 (attempts item + 1)); simpl.
    + repeat split; try done; try lia.
    + repeat split; try done; try lia. intros Hst. specialize (Hf Hst). lia.
Qed.

Lemma coherent_swept env queue : Forall coherent queue -> Forall coherent (swept env queue).
Proof.
  intros Hq. unfold swept. apply Forall_forall. intros item Hin.
  apply list_elem_of_In, filter_In in Hin as [Hin _].
  apply list_elem_of_In, list_elem_of_lookup in Hin as [i Hi].
  unfold passed in Hi. rewrite list_lookup_imap in Hi.
  destruct (queue !! i) as [x |] eqn:Hx; [| done]. simpl in Hi. injection Hi as <-.
  apply coherent_step. rewrite Forall_forall in Hq. apply Hq.
  apply list_elem_of_lookup. by exists i.
Qed.

Lemma perform_coherent op w :
  Forall coherent (stored w) -> Forall coherent (stored (perform op w)).
Proof.
  intros Hw. destruct op as [env res op payload | env | env | online]; simpl.
  - destruct (queueOperation_cases env res op payload w) as [[_ H] | (queue & Hq & H)];
      rewrite H; simpl; [done |].
    unfold stored in *. rewrite Hq in Hw. simpl in Hw.
    destruct (setItemOk env); simpl.
    + replace (queueSlot _) with (Holds (PArray (queue ++ [newItem env res op payload])))
        by (by destruct (networkListenerActive w)).
      simpl. apply Forall_app. split; [done |]. constructor; [| constructor].
      apply coherent_newItem.
    + replace (queueSlot _) with (queueSlot w) by (by destruct (networkListenerActive w)).
      by rewrite Hq.
  - destruct (stored_after_process env w) as [H | H]; rewrite H; [done |].
    by apply coherent_swept.
  - by rewrite getQueueStatus_world.
  - unfold initQueueManager, bind, setupNetworkListener, modify, ret. simpl.
    by destruct (networkListenerActive w).
Qed.

(** X3. The items of the stored queue stay coherent through every
    sequence of operations: [attempts] is never negative, [lastError] is
    present exactly on the items with at least one attempt, a ['pending']
    item has fewer than three attempts and a ['failed'] item at least
    three. *)
Theorem stored_items_stay_coherent ops w :
  Forall coherent (stored w) ->
  Forall coherent (stored (performAll ops w)).
Proof.
  apply (performAll_invariant (fun w => Forall coherent (stored w))).
  apply perform_coherent.
Qed.

Lemma stored_items_stay_coherent_witness :
  Forall coherent
    (stored (performAll [ OpQueue env_online "reports" "create" report_payload;
                          OpProcess env_offline;
                          OpQueue env_online "widgets" "create" JNull;
                          OpProcess env_offline;
                          OpProcess env_offline;
                          OpProcess env_online ]
                        (world_with Absent false))).
Proof.
  apply (stored_items_stay_coherent _ (world_with Absent false)). constructor.
Defined.

(** ** A stored value that is no array *)

Lemma perform_wedged op w :
  queueSlot w = Holds PNonArray ->
  queueSlot (perform op w) = Holds PNonArray /\
  attempted (perform op w) = attempted w /\
  calls (perform op w) = calls w.
Proof.
  intros Hbad. destruct op as [env res op payload | env | env | online]; simpl.
  - by rewrite (queueOperation_nonarray env res op payload w Hbad).
  - destruct (isProcessing w) eqn:Hflag.
    { rewrite (processQueue_skipped env w); [done | by left]. }
    destruct (isAuthenticated w) eqn:Hauth.
    + by rewrite (processQueue_error env w Hflag Hauth Hbad).
    + rewrite (processQueue_skipped env w); [done | by right].
  - by rewrite getQueueStatus_world.
  - unfold initQueueManager, bind, setupNetworkListener, modify, ret. simpl.
    by destruct (networkListenerActive w).
Qed.

(** X4. A stored value that parses to [null], a boolean, a number or an
    object without [length], [push] and [filter] members (what
    [PNonArray] stands for) is never repaired: whatever operations of
    the module follow, the slot keeps it, nothing is dispatched and no
    remote call is issued; every [queueOperation] throws, every
    [getQueueStatus] throws, and every run that is not skipped reports
    [{error}]. *)
Theorem non_array_store_is_never_repaired ops w :
  queueSlot w = Holds PNonArray ->
  let w' := performAll ops w in
  queueSlot w' = Holds PNonArray /\
  attempted w' = attempted w /\
  calls w' = calls w /\
  (forall env res op payload,
     fst (queueOperation env res op payload w')
     = Thrown "Failed to queue operation for offline processing") /\
  (forall env, fst (getQueueStatus env w') = Thrown (typeError env)) /\
  (forall env,
     isProcessing w' = false -> isAuthenticated w' = true ->
     fst (processQueue env w') = Normal (RError (typeError env))).
Proof.
  intros Hbad w'.
  assert (Hinv : queueSlot w' = Holds PNonArray /\
                 attempted w' = attempted w /\ calls w' = calls w).
  { apply (performAll_invariant
             (fun v => queueSlot v = Holds PNonArray /\
                       attempted v = attempted w /\ calls v = calls w)); [| done].
    intros op v (Hs & Ha & Hc).
    destruct (perform_wedged op v Hs) as (Hs' & Ha' & Hc').
    by rewrite Ha', Hc'. }
  destruct Hinv as (Hs & Ha & Hc). repeat split; try done.
  - intros env res op payload. by rewrite (queueOperation_nonarray env res op payload w' Hs).
  - intros env. unfold getQueueStatus, bind, getQueue, get. simpl. by rewrite Hs.
  - intros env Hflag Hauth. by rewrite (processQueue_error env w' Hflag Hauth Hs).
Qed.

Lemma non_array_store_is_never_repaired_witness :
  let ops := [ OpQueue env_online "reports" "create" report_payload;
               OpProcess env_online;
               OpInit true;
               OpStatus env_online ] in
  let w := world_with (Holds PNonArray) false in
  let w' := performAll ops w in
  queueSlot w' = Holds PNonArray /\
  attempted w' = attempted w /\
  calls w' = calls w /\
  (forall env res op payload,
     fst (queueOperation env res op payload w')
     = Thrown "Failed to queue operation for offline processing") /\
  (forall env, fst (getQueueStatus env w') = Thrown (typeError env)) /\
  (forall env,
     isProcessing w' = false -> isAuthenticated w' = true ->
     fst (processQueue env w') = Normal (RError (typeError env))).
Proof.
  intros ops w.
  apply (non_array_store_is_never_repaired ops w). reflexivity.
Defined.

(** ** Nothing to process *)

(** X5. A run that is not skipped and finds nothing to process (no stored
    text, an unreadable text, or the empty array) reports
    [{processed: 0, message: 'Queue is empty'}] and leaves the world as it
    was: nothing is dispatched, and the slot is not written, so an
    unreadable text stays in place. *)
Theorem run_on_empty_queue_changes_nothing env w :
  isProcessing w = false ->
  isAuthenticated w = true ->
  readSlot (queueSlot w) = PArray [] ->
  processQueue env w = (Normal (REmpty 0 "Queue is empty"), w).
Proof.
  intros Hflag Hauth Hq. rewrite (processQueue_empty env w Hflag Hauth Hq).
  f_equal. destruct w; simpl in *. by subst.
Qed.

Lemma run_on_empty_queue_changes_nothing_witness :
  processQueue env_online (world_with Unreadable false)
  = (Normal (REmpty 0 "Queue is empty"), world_with Unreadable false) /\
  processQueue env_online (world_with (Holds (PArray [])) false)
  = (Normal (REmpty 0 "Queue is empty"), world_with (Holds (PArray [])) false).
Proof.
  split.
  - apply (run_on_empty_queue_changes_nothing env_online (world_with Unreadable false));
      reflexivity.
  - apply (run_on_empty_queue_changes_nothing env_online (world_with (Holds (PArray [])) false));
      reflexivity.
Defined.

(** ** The status summary *)

Lemma count_status_cons s item queue :
  count_status s (item :: queue)
  = ((if bool_decide (status item = s) then 1 else 0) + count_status s queue)%nat.
Proof. unfold count_status. simpl. by destruct (bool_decide (status item = s)). Qed.

Lemma count_status_total queue :
  length queue
  = (count_status pending queue + count_status completed queue
     + count_status failed queue)%nat.
Proof.
  induction queue as [| item rest IH]; [done |].
  rewrite !count_status_cons. simpl length. rewrite IH.
  destruct (status item); simpl; lia.
Qed.

Lemma getQueueStatus_array env w queue :
  readSlot (queueSlot w) = PArray queue ->
  getQueueStatus env w
  = (Normal (mkStatus (length queue) (count_status pending queue)
                      (count_status completed queue) (count_status failed queue)
                      (isProcessing w)), w).
Proof.
  intros Hq. unfold getQueueStatus, bind, getQueue, get, array_of, ret. simpl.
  by rewrite Hq.
Qed.

(** X6. On a store that reads as an array, [getQueueStatus] changes
    nothing and reports the length of the queue as [total], which is the
    sum of its [pending], [completed] and [failed] counts, together with
    the current [isProcessing] flag. *)
Theorem status_counts_add_up env w queue :
  readSlot (queueSlot w) = PArray queue ->
  exists st,
    getQueueStatus env w = (Normal st, w) /\
    total st = length queue /\
    total st = (pendingCount st + completedCount st + failedCount st)%nat /\
    processing st = isProcessing w.
Proof.
  intros Hq. eexists. split; [apply (getQueueStatus_array env w queue Hq) |].
  simpl. split; [done |]. split; [apply count_status_total | done].
Qed.

Lemma status_counts_add_up_witness :
  let queue := [item_a; item_done 0; item_exhausted; item_b] in
  let w := world_with (Holds (PArray queue)) true in
  exists st,
    getQueueStatus env_online w = (Normal st, w) /\
    total st = length queue /\
    total st = (pendingCount st + completedCount st + failedCount st)%nat /\
    processing st = isProcessing w.
Proof.
  intros queue w. apply (status_counts_add_up env_online w queue). reflexivity.
Defined.

(** X7. After a run that reached the loop on a store that accepts the
    write, the [remaining] the run reported is the [pending] count that
    [getQueueStatus] reports next, [isProcessing] reads false, and the
    queue is no longer than before. *)
Theorem remaining_is_next_pending_count env env' w queue :
  isProcessing w = false ->
  isAuthenticated w = true ->
  readSlot (queueSlot w) = PArray queue ->
  queue <> [] ->
  setItemOk env = true ->
  exists processed failures remaining st w',
    processQueue env w = (Normal (RSummary processed failures remaining), w') /\
    getQueueStatus env' w' = (Normal st, w') /\
    Z.of_nat (pendingCount st) = remaining /\
    processing st = false /\
    (total st <= length queue)%nat.
Proof.
  intros Hflag Hauth Hq Hne Hok.
  destruct (processQueue_runs env w Hflag Hauth queue Hq Hne) as (p & f & Hrun).
  do 5 eexists. split; [exact Hrun |].
  assert (Hslot : readSlot (queueSlot (after_run env queue w)) = PArray (swept env queue)).
  { unfold after_run. by rewrite Hok. }
  split; [apply (getQueueStatus_array env' _ _ Hslot) |]. simpl.
  split; [done |]. split; [reflexivity |].
  unfold swept. etransitivity; [apply filter_length_le |].
  unfold passed. by rewrite length_imap.
Qed.

Lemma remaining_is_next_pending_count_witness :
  let queue := [item_a; item_exhausted; item_c] in
  let w := world_with (Holds (PArray queue)) false in
  exists processed failures remaining st w',
    processQueue env_online w = (Normal (RSummary processed failures remaining), w') /\
    getQueueStatus env_offline w' = (Normal st, w') /\
    Z.of_nat (pendingCount st) = remaining /\
    processing st = false /\
    (total st <= length queue)%nat.
Proof.
  intros queue w.
  apply (remaining_is_next_pending_count env_online env_offline w queue);
    [reflexivity | reflexivity | reflexivity | discriminate | reflexivity].
Defined.

(** ** The counters of a run *)

Lemma attemptItem_counts env i item counts w :
  exists a b : nat,
    attemptItem env i item counts w
    = (Normal (settle env i item, (fst counts + Z.of_nat a, snd counts + Z.of_nat b)),
       log_all [id item] (issued env i item) w) /\
    ((a = 1 /\ b = 0 /\ status (settle env i item) = completed) \/
     (a = 0 /\ b = 1 /\ status (settle env i item) = failed) \/
     (a = 0 /\ b = 0 /\ status (settle env i item) = status item))%nat.
Proof.
  unfold attemptItem, try_catch, bind, settle.
  rewrite processQueueItem_log.
  destruct (verdict env i item) as [[] | e].
  - exists 1%nat, 0%nat. split; [| by left].
    unfold ret. simpl. by rewrite Z.add_0_r.
  - simpl. destruct (3 <=? attempts item + 1).
    + exists 0%nat, 1%nat. split; [| right; by left].
      unfold ret. simpl. by rewrite Z.add_0_r.
    + exists 0%nat, 0%nat. split; [| right; by right].
      unfold ret. simpl. rewrite !Z.add_0_r. by destruct counts.
Qed.

Lemma filter_not_completed_cons item rest :
  List.filter not_completed (item :: rest)
  = if decide (status item = completed) then List.filter not_completed rest
    else item :: List.filter not_completed rest.
Proof.
  simpl. unfold not_completed at 1. case_decide.
  - by rewrite bool_decide_eq_true_2.
  - by rewrite bool_decide_eq_false_2.
Qed.

Lemma forEachItem_counts env queue : forall i counts w,
  exists q' (a b : nat) w',
    forEachItem env i queue counts w
    = (Normal (q', (fst counts + Z.of_nat a, snd counts + Z.of_nat b)), w') /\
    count_status completed q' = (count_status completed queue + a)%nat /\
    (b <= count_status failed q')%nat /\
    (a + b <= length (List.filter not_completed queue))%nat.
Proof.
  induction queue as [| item rest IH]; intros i counts w.
  - exists [], 0%nat, 0%nat, w. simpl. unfold ret. rewrite !Z.add_0_r.
    destruct counts. repeat split; done.
  - simpl forEachItem. rewrite filter_not_completed_cons. case_decide as Hs.
    + destruct (IH (S i) counts w) as (q' & a & b & w' & Hrest & Hc & Hf & Hn).
      exists (item :: q'), a, b, w'. unfold bind. rewrite Hrest. unfold ret. simpl.
      rewrite !count_status_cons, Hs, Hc. simpl.
      repeat split; try done; lia.
    + destruct (attemptItem_counts env i item counts w) as (a1 & b1 & Ha & Hcase).
      destruct (IH (S i) (fst counts + Z.of_nat a1, snd counts + Z.of_nat b1)
                   (log_all [id item] (issued env i item) w))
        as (q' & a & b & w' & Hrest & Hc & Hf & Hn).
      exists (settle env i item :: q'), (a1 + a)%nat, (b1 + b)%nat, w'.
      unfold bind. rewrite Ha. simpl. rewrite Hrest. unfold ret. simpl.
      rewrite !Nat2Z.inj_add, !Z.add_assoc. split; [done |].
      rewrite !count_status_cons, Hc. simpl length.
      rewrite (bool_decide_eq_false_2 (status item = completed)) by done.
      destruct Hcase as [(-> & -> & Hst) | [(-> & -> & Hst) | (-> & -> & Hst)]];
        rewrite Hst; simpl;
        rewrite ?(bool_decide_eq_false_2 (status item = completed)) by done.
      * repeat split; lia.
      * repeat split; lia.
      * repeat split; lia.
Qed.

Lemma processQueue_summary env w queue afterPass counts w1 :
  isProcessing w = false ->
  isAuthenticated w = true ->
  readSlot (queueSlot w) = PArray queue ->
  queue <> [] ->
  forEachItem env 0 queue (0, 0) (set_isProcessing true w) = (Normal (afterPass, counts), w1) ->
  fst (processQueue env w)
  = Normal (RSummary (fst counts) (snd counts)
              (Z.of_nat (length (List.filter is_pending
                                   (List.filter (keep (now env - DAY)) afterPass))))).
Proof.
  intros Hflag Hauth Hq Hne Hloop. unfold processQueue. rewrite Hflag, Hauth. simpl.
  unfold bind at 1. unfold modify at 1. unfold try_finally, try_catch.
  unfold bind at 1. unfold getQueue, get. simpl. rewrite Hq.
  unfold bind at 1. simpl. unfold ret at 1.
  destruct queue as [| item rest]; [done |].
  change (length (item :: rest) =? 0)%nat with false. cbv iota.
  unfold bind at 1. rewrite Hloop. simpl fst. simpl snd.
  unfold bind, saveQueue, modify, ret. by destruct (setItemOk env).
Qed.

(** X8. In the summary of a run that reached the loop, [processed] is the
    number of items the pass newly marked ['completed']; [failed] is not
    negative and at most the number of items that are ['failed'] after
    the pass; and the two together never exceed the number of items that
    were not ['completed'] when the run began. *)
Theorem run_counters env w queue :
  isProcessing w = false ->
  isAuthenticated w = true ->
  readSlot (queueSlot w) = PArray queue ->
  queue <> [] ->
  exists afterPass counts w1 processed failures remaining,
    forEachItem env 0 queue (0, 0) (set_isProcessing true w)
    = (Normal (afterPass, counts), w1) /\
    fst (processQueue env w) = Normal (RSummary processed failures remaining) /\
    processed
    = Z.of_nat (count_status completed afterPass) - Z.of_nat (count_status completed queue) /\
    0 <= failures <= Z.of_nat (count_status failed afterPass) /\
    processed + failures <= Z.of_nat (length (List.filter not_completed queue)).
Proof.
  intros Hflag Hauth Hq Hne.
  destruct (forEachItem_counts env queue 0 (0, 0) (set_isProcessing true w))
    as (q' & a & b & w1 & Hloop & Hc & Hf & Hn).
  do 6 eexists. split; [exact Hloop |].
  split; [apply (processQueue_summary env w queue _ _ _ Hflag Hauth Hq Hne Hloop) |].
  simpl. rewrite Hc. lia.
Qed.

Lemma run_counters_witness :
  let queue := [item_a; item_done 0; item_c; item_exhausted] in
  let w := world_with (Holds (PArray queue)) false in
  exists afterPass counts w1 processed failures remaining,
    forEachItem env_online 0 queue (0, 0) (set_isProcessing true w)
    = (Normal (afterPass, counts), w1) /\
    fst (processQueue env_online w) = Normal (RSummary processed failures remaining) /\
    processed
    = Z.of_nat (count_status completed afterPass) - Z.of_nat (count_status completed queue) /\
    0 <= failures <= Z.of_nat (count_status failed afterPass) /\
    processed + failures <= Z.of_nat (length (List.filter not_completed queue)).
Proof.
  intros queue w.
  apply (run_counters env_online w queue);
    [reflexivity | reflexivity | reflexivity | discriminate].
Defined.

(** ** Pending work *)




(** ** The dispatcher *)

Lemma eqb_false_of_ne (a b : string) : a <> b -> String.eqb a b = false.
Proof. apply String.eqb_neq. Qed.

Lemma dispatch_unknown_resource env i item w :
  ~ known_resource (resource item) ->
  processQueueItem env i item w
  = (Thrown ("Unknown resource: " +:+ resource item), log_all [id item] [] w).
Proof.
  intros Hn. unfold known_resource in Hn.
  unfold processQueueItem, bind, modify, try_catch, throw.
  rewrite !eqb_false_of_ne by tauto. by rewrite log_attempt_log_all.
Qed.

(** The dispatch of a table item in the model: the call's settling, and
    the two logs extended. *)
Lemma dispatch_known env i item c w :
  dispatches item c ->
  importError env i (provider c) = None ->
  processQueueItem env i item w
  = (match remote env i c with
     | Resolved => Normal tt
     | Rejected message => Thrown message
     end, log_all [id item] [c] w).
Proof.
  intros Hd Himp.
  unfold processQueueItem, bind, modify, try_catch. rewrite log_attempt_log_all.
  destruct Hd as [Hr Ho | rid Hr Ho Hp | eid Hr Ho Hp]; rewrite Hr, Ho; simpl in *;
    unfold importModule; rewrite Himp; unfold ret; simpl; rewrite ?Hp;
    unfold invoke, bind, modify; simpl; rewrite log_call_log_all, log_all_log_all;
    simpl; by destruct (remote env i _).
Qed.

Ltac dispatch_unfold :=
  unfold processQueueItem, bind, modify, try_catch, importModule, throw;
  rewrite log_attempt_log_all.

Lemma dispatch_cases env i item w :
  exists r cs,
    processQueueItem env i item w = (r, log_all [id item] cs w) /\
    (cs = [] \/
     exists c, cs = [c] /\ dispatches item c /\ importError env i (provider c) = None).
Proof.
  destruct (decide (resource item = "reports")) as [Hr | Hr1].
  { destruct (importError env i reportService) as [e |] eqn:Himp.
    { exists (Thrown e), []. split; [| by left].
      dispatch_unfold. rewrite Hr. simpl. by rewrite Himp. }
    destruct (decide (operation item = "create")) as [Ho | Ho1].
    { do 2 eexists. split.
      - apply (dispatch_known env i item (submitReport (data item))); [by constructor | done].
      - right. eexists. split; [done |]. split; [by constructor | done]. }
    destruct (decide (operation item = "update")) as [Ho | Ho2].
    { destruct (prop (data item) "id") as [rid |] eqn:Hp.
      - do 2 eexists. split.
        + apply (dispatch_known env i item (updateReport rid (data item)));
            [by constructor | done].
        + right. eexists. split; [done |]. split; [by constructor | done].
      - exists (Thrown (typeError env)), []. split; [| by left].
        dispatch_unfold. rewrite Hr, Ho. simpl. rewrite Himp. unfold ret. simpl.
        by rewrite Hp. }
    exists (Thrown ("Unknown operation: " +:+ resource item +:+ "/" +:+ operation item)), [].
    split; [| by left].
    dispatch_unfold. rewrite Hr. simpl. rewrite Himp. unfold ret. simpl.
    by rewrite !eqb_false_of_ne by done. }
  destruct (decide (resource item = "events")) as [Hr | Hr2].
  { destruct (importError env i eventService) as [e |] eqn:Himp.
    { exists (Thrown e), []. split; [| by left].
      dispatch_unfold. rewrite Hr. simpl. by rewrite Himp. }
    destruct (decide (operation item = "register")) as [Ho | Ho1].
    { destruct (prop (data item) "eventId") as [eid |] eqn:Hp.
      - do 2 eexists. split.
        + apply (dispatch_known env i item (registerForEvent eid)); [by constructor | done].
        + right. eexists. split; [done |]. split; [by constructor | done].
      - exists (Thrown (typeError env)), []. split; [| by left].
        dispatch_unfold. rewrite Hr, Ho. simpl. rewrite Himp. unfold ret. simpl.
        by rewrite Hp. }
    exists (Thrown ("Unknown operation: " +:+ resource item +:+ "/" +:+ operation item)), [].
    split; [| by left].
    dispatch_unfold. rewrite Hr. simpl. rewrite Himp. unfold ret. simpl.
    by rewrite !eqb_false_of_ne by done. }
  destruct (decide (resource item = "users")) as [Hr | Hr3].
  { destruct (importError env i userService) as [e |] eqn:Himp.
    { exists (Thrown e), []. split; [| by left].
      dispatch_unfold. rewrite Hr. simpl. by rewrite Himp. }
    exists (Thrown ("Unknown operation: " +:+ resource item +:+ "/" +:+ operation item)), [].
    split; [| by left].
    dispatch_unfold. rewrite Hr. simpl. rewrite Himp. unfold ret. by simpl. }
  do 2 eexists. split; [| by left].
  apply dispatch_unknown_resource. unfold known_resource. tauto.
Qed.

(** X10. The dispatcher calls at most one service function per item, and
    only through its table: whatever the item and the environment,
    [processQueueItem] logs one attempt and either issues no call at all,
    or issues exactly the call that the table assigns to the item
    (['reports/create'], ['reports/update'] or ['events/register']), after
    a successful import of the module that exports it. *)
Theorem dispatch_is_by_the_table env i item w :
  exists cs,
    calls (snd (processQueueItem env i item w)) = calls w ++ cs /\
    attempted (snd (processQueueItem env i item w)) = attempted w ++ [id item] /\
    (cs = [] \/
     exists c, cs = [c] /\ dispatches item c /\ importError env i (provider c) = None).
Proof.
  destruct (dispatch_cases env i item w) as (r & cs & Hrun & Hcs).
  exists cs. by rewrite Hrun.
Qed.

(** X11. An item of the table is replayed as the call it stands for: when
    the module imports, [processQueueItem] issues that one call, with the
    payload as queued, and resolves or throws exactly as the call does,
    with the call's message as the error. *)
Theorem table_item_is_replayed env i item c w :
  dispatches item c ->
  importError env i (provider c) = None ->
  fst (processQueueItem env i item w)
  = match remote env i c with
    | Resolved => Normal tt
    | Rejected message => Thrown message
    end /\
  calls (snd (processQueueItem env i item w)) = calls w ++ [c] /\
  attempted (snd (processQueueItem env i item w)) = attempted w ++ [id item].
Proof.
  intros Hd Himp. by rewrite (dispatch_known env i item c w Hd Himp).
Qed.

Lemma table_item_is_replayed_witness :
  (fst (processQueueItem env_offline 0 item_b blank) = Thrown "Failed to fetch" /\
   calls (snd (processQueueItem env_offline 0 item_b blank))
   = calls blank ++ [registerForEvent (value (JStr "ev42"))] /\
   attempted (snd (processQueueItem env_offline 0 item_b blank))
   = attempted blank ++ [id item_b]) /\
  (fst (processQueueItem env_online 4 item_a blank) = Normal tt /\
   calls (snd (processQueueItem env_online 4 item_a blank))
   = calls blank ++ [submitReport report_payload] /\
   attempted (snd (processQueueItem env_online 4 item_a blank))
   = attempted blank ++ [id item_a]).
Proof.
  split.
  - apply (table_item_is_replayed env_offline 0 item_b
             (registerForEvent (value (JStr "ev42"))) blank).
    + by apply (dispatch_register item_b (value (JStr "ev42"))).
    + reflexivity.
  - apply (table_item_is_replayed env_online 4 item_a (submitReport report_payload) blank).
    + by apply (dispatch_create item_a).
    + reflexivity.
Defined.

(** ** Items that can never be replayed *)

Lemma step_unknown_resource env i item :
  status item <> completed ->
  ~ known_resource (resource item) ->
  step env i item = fail_once ("Unknown resource: " +:+ resource item) item.
Proof.
  intros Hs Hn. unfold step. rewrite decide_False by done.
  unfold settle, verdict. by rewrite (dispatch_unknown_resource env i item blank Hn).
Qed.

Lemma fail_once_fields message item :
  identity (fail_once message item) = identity item /\
  attempts (fail_once message item) = attempts item + 1 /\
  lastError (fail_once message item) = Some message /\
  (status item <> completed -> status (fail_once message item) <> completed) /\
  (3 <= attempts (fail_once message item) -> status (fail_once message item) = failed).
Proof.
  unfold fail_once. simpl. destruct (Z.leb_spec 3 (attempts item + 1)); simpl.
  - repeat split; done.
  - repeat split; try done. lia.
Qed.

Lemma fail_iter_fields message item k :
  let item' := Nat.iter k (fail_once message) item in
  identity item' = identity item /\
  attempts item' = attempts item + Z.of_nat k /\
  (status item <> completed -> status item' <> completed) /\
  (k <> 0%nat -> lastError item' = Some message) /\
  (k <> 0%nat -> 3 <= attempts item' -> status item' = failed).
Proof.
  induction k as [| k IH]; simpl.
  - repeat split; try done. lia.
  - destruct IH as (Hi & Ha & Hs & _ & _).
    destruct (fail_once_fields message (Nat.iter k (fail_once message) item))
      as (Hi' & Ha' & Hl' & Hs' & Hf').
    split; [by rewrite Hi', Hi |]. split; [rewrite Ha', Ha; lia |].
    split; [auto |]. split; [done |]. intros _. apply Hf'.
Qed.

Lemma run_fails_unknown_resource env w queue item :
  isProcessing w = false ->
  isAuthenticated w = true ->
  readSlot (queueSlot w) = PArray queue ->
  In item queue ->
  status item <> completed ->
  ~ known_resource (resource item) ->
  setItemOk env = true ->
  exists queue',
    readSlot (queueSlot (snd (processQueue env w))) = PArray queue' /\
    In (fail_once ("Unknown resource: " +:+ resource item) item) queue'.
Proof.
  intros Hflag Hauth Hq Hin Hs Hn Hok.
  destruct (processQueue_runs env w Hflag Hauth queue Hq) as (p & f & Hrun).
  { intros ->. by destruct Hin. }
  exists (swept env queue). rewrite Hrun. unfold after_run. rewrite Hok. simpl.
  split; [done |].
  apply list_elem_of_In, list_elem_of_lookup in Hin as [i Hi].
  apply filter_In. split.
  - rewrite <- (step_unknown_resource env i item Hs Hn).
    apply list_elem_of_In, list_elem_of_lookup. exists i. by apply lookup_passed.
  - apply keep_not_completed. by apply fail_once_fields.
Qed.

Lemma runs_fail_unknown_resource envs : forall w queue item,
  isProcessing w = false ->
  isAuthenticated w = true ->
  readSlot (queueSlot w) = PArray queue ->
  In item queue ->
  status item <> completed ->
  ~ known_resource (resource item) ->
  Forall (fun env => setItemOk env = true) envs ->
  In (Nat.iter (length envs) (fail_once ("Unknown resource: " +:+ resource item)) item)
     (stored (processAll envs w)).
Proof.
  induction envs as [| env rest IH]; intros w queue item Hflag Hauth Hq Hin Hs Hn Hok.
  - simpl. unfold stored. by rewrite Hq.
  - apply Forall_cons in Hok as [Hok Hrest].
    destruct (run_fails_unknown_resource env w queue item Hflag Hauth Hq Hin Hs Hn Hok)
      as (queue' & Hq' & Hin').
    destruct (processQueue_fields env w) as (Ht & Hf & _ & _). simpl in Ht, Hf.
    set (message := "Unknown resource: " +:+ resource item) in *.
    destruct (fail_once_fields message item) as (Hi1 & _ & _ & Hs1 & _).
    assert (Hres : resource (fail_once message item) = resource item).
    { unfold identity in Hi1. by injection Hi1. }
    simpl length. rewrite Nat.iter_succ_r.
    change (processAll (env :: rest) w) with (processAll rest (snd (processQueue env w))).
    specialize (IH (snd (processQueue env w)) queue' (fail_once message item)).
    rewrite Hres in IH. apply IH; try done.
    + by rewrite Hf.
    + unfold isAuthenticated in *. by rewrite Ht.
    + by apply Hs1.
Qed.

Lemma issuedFrom_inert env queue : forall i,
  Forall (fun x => status x = completed \/ ~ known_resource (resource x)) queue ->
  issuedFrom env i queue = [].
Proof.
  induction queue as [| item rest IH]; intros i Hall; [done |].
  apply Forall_cons in Hall as [Hitem Hrest]. simpl. rewrite (IH (S i) Hrest).
  case_decide as Hs; [done |].
  destruct Hitem as [Hc | Hn]; [done |].
  unfold issued. by rewrite (dispatch_unknown_resource env i item blank Hn).
Qed.

Lemma step_inert env i item :
  status item = completed \/ ~ known_resource (resource item) ->
  status (step env i item) = completed \/ ~ known_resource (resource (step env i item)).
Proof.
  intros [Hc | Hn].
  - left. unfold step. by rewrite decide_True.
  - right. pose proof (identity_step env i item) as Hid. unfold identity in Hid.
    injection Hid as _ Hres _ _ _. by rewrite Hres.
Qed.

Lemma run_on_inert_queue env w queue item :
  isProcessing w = false ->
  isAuthenticated w = true ->
  readSlot (queueSlot w) = PArray queue ->
  Forall (fun x => status x = completed \/ ~ known_resource (resource x)) queue ->
  In item queue ->
  status item <> completed ->
  ~ known_resource (resource item) ->
  setItemOk env = true ->
  calls (snd (processQueue env w)) = calls w /\
  exists queue',
    readSlot (queueSlot (snd (processQueue env w))) = PArray queue' /\
    Forall (fun x => status x = completed \/ ~ known_resource (resource x)) queue' /\
    In (fail_once ("Unknown resource: " +:+ resource item) item) queue'.
Proof.
  intros Hflag Hauth Hq Hall Hin Hs Hn Hok.
  destruct (run_fails_unknown_resource env w queue item Hflag Hauth Hq Hin Hs Hn Hok)
    as (queue' & Hq' & Hin').
  destruct (processQueue_runs env w Hflag Hauth queue Hq) as (p & f & Hrun).
  { intros ->. by destruct Hin. }
  split.
  - rewrite Hrun. unfold after_run. rewrite Hok. simpl.
    by rewrite (issuedFrom_inert env queue 0 Hall), app_nil_r.
  - exists queue'. split; [done |]. split; [| done].
    rewrite Hrun in Hq'. unfold after_run in Hq'. rewrite Hok in Hq'. simpl in Hq'.
    injection Hq' as <-.
    apply Forall_forall. intros x Hx.
    apply list_elem_of_In, filter_In in Hx as [Hx _].
    apply list_elem_of_In, list_elem_of_lookup in Hx as [i Hi].
    unfold passed in Hi. rewrite list_lookup_imap in Hi.
    destruct (queue !! i) as [y |] eqn:Hy; [| done]. simpl in Hi. injection Hi as <-.
    apply step_inert. rewrite Forall_forall in Hall. apply Hall.
    apply list_elem_of_lookup. by exists i.
Qed.

Lemma runs_on_inert_queue envs : forall w queue item,
  isProcessing w = false ->
  isAuthenticated w = true ->
  readSlot (queueSlot w) = PArray queue ->
  Forall (fun x => status x = completed \/ ~ known_resource (resource x)) queue ->
  In item queue ->
  status item <> completed ->
  ~ known_resource (resource item) ->
  Forall (fun env => setItemOk env = true) envs ->
  calls (processAll envs w) = calls w.
Proof.
  induction envs as [| env rest IH]; intros w queue item Hflag Hauth Hq Hall Hin Hs Hn Hok;
    [done |].
  apply Forall_cons in Hok as [Hok Hrest].
  destruct (run_on_inert_queue env w queue item Hflag Hauth Hq Hall Hin Hs Hn Hok)
    as (Hcalls & queue' & Hq' & Hall' & Hin').
  destruct (processQueue_fields env w) as (Ht & Hf & _ & _). simpl in Ht, Hf.
  set (message := "Unknown resource: " +:+ resource item) in *.
  destruct (fail_once_fields message item) as (Hi1 & _ & _ & Hs1 & _).
  assert (Hres : resource (fail_once message item) = resource item).
  { unfold identity in Hi1. by injection Hi1. }
  change (processAll (env :: rest) w) with (processAll rest (snd (processQueue env w))).
  rewrite <- Hcalls.
  apply (IH (snd (processQueue env w)) queue' (fail_once message item)); try done.
  - by rewrite Hf.
  - unfold isAuthenticated in *. by rewrite Ht.
  - by apply Hs1.
  - by rewrite Hres.
Qed.

(** X12. An item whose resource the dispatcher does not know is retried
    at every run and never completes. In a queue every item of which is
    either ['completed'] or of an unknown resource (so that no run calls a
    service function), after any number of runs from an idle,
    authenticated state on a store that accepts the writes, the item is
    still in the queue, with one more attempt per run,
    ['Unknown resource: ...'] as its [lastError], and the status
    ['failed'] as soon as its attempts reach three; no remote call has
    been issued, and there is no run after which the item is left
    alone. *)
Theorem unknown_resource_is_retried_at_every_run envs w queue item :
  isProcessing w = false ->
  isAuthenticated w = true ->
  readSlot (queueSlot w) = PArray queue ->
  Forall (fun x => status x = completed \/ ~ known_resource (resource x)) queue ->
  In item queue ->
  status item <> completed ->
  ~ known_resource (resource item) ->
  Forall (fun env => setItemOk env = true) envs ->
  calls (processAll envs w) = calls w /\
  exists item',
    In item' (stored (processAll envs w)) /\
    identity item' = identity item /\
    attempts item' = attempts item + Z.of_nat (length envs) /\
    status item' <> completed /\
    (envs <> [] ->
     lastError item' = Some ("Unknown resource: " +:+ resource item) /\
     (3 <= attempts item' -> status item' = failed)).
Proof.
  intros Hflag Hauth Hq Hall Hin Hs Hn Hok.
  split; [by apply (runs_on_inert_queue envs w queue item) |].
  eexists. split.
  { apply (runs_fail_unknown_resource envs w queue item); done. }
  destruct (fail_iter_fields ("Unknown resource: " +:+ resource item) item (length envs))
    as (Hi & Ha & Hst & Hl & Hf).
  split; [done |]. split; [done |]. split; [by apply Hst |].
  intros Hne. assert (length envs <> 0%nat) by (by destruct envs). auto.
Qed.

Lemma unknown_resource_is_retried_at_every_run_witness :
  let envs := [env_online; env_offline; env_online; env_online; env_offline] in
  let queue := [item_done 1699999999000; item_c] in
  let w := world_with (Holds (PArray queue)) false in
  calls (processAll envs w) = calls w /\
  exists item',
    In item' (stored (processAll envs w)) /\
    identity item' = identity item_c /\
    attempts item' = attempts item_c + Z.of_nat (length envs) /\
    status item' <> completed /\
    (envs <> [] ->
     lastError item' = Some ("Unknown resource: " +:+ resource item_c) /\
     (3 <= attempts item' -> status item' = failed)).
Proof.
  intros envs queue w.
  apply (unknown_resource_is_retried_at_every_run envs w queue item_c).
  - reflexivity.
  - reflexivity.
  - reflexivity.
  - constructor; [by left |]. constructor; [| constructor].
    right. unfold known_resource. simpl. intros [H | [H | H]]; discriminate.
  - right. left. reflexivity.
  - discriminate.
  - unfold known_resource. simpl. intros [H | [H | H]]; discriminate.
  - repeat constructor.
Defined.

(** ** The callers *)

Example includes_samples :
  includes "network" "A network error occurred" = true /\
  includes "network" "Failed to fetch" = false /\
  includes "network" "NetworkError when attempting to fetch resource." = false /\
  includes "network" "" = false.
Proof. vm_compute. repeat split; reflexivity. Qed.

(** X13. A registration that [registerForEvent] queues (the direct call
    failed with a message that includes ['network'], or with status 503;
    the store reads as an array and accepts the write) is answered with
    the success-shaped response, stored at the end of the queue, and
    replayed by the dispatcher as [registerForEvent] with the same event
    id: the dispatch issues that one call and resolves or throws as the
    call does. *)
Theorem queued_registration_is_replayed env message st eventId w queue :
  network_or_unavailable (mkApiError message st) = true ->
  readSlot (queueSlot w) = PArray queue ->
  setItemOk env = true ->
  exists item w1,
    EventService.registerForEvent env (Refused message st) eventId w
    = (Normal (queuedResponse item), w1) /\
    queueSlot w1 = Holds (PArray (queue ++ [item])) /\
    status item = pending /\
    forall env' i w2,
      importError env' i eventService = None ->
      fst (processQueueItem env' i item w2)
      = match remote env' i (registerForEvent (value eventId)) with
        | Resolved => Normal tt
        | Rejected e => Thrown e
        end /\
      calls (snd (processQueueItem env' i item w2))
      = calls w2 ++ [registerForEvent (value eventId)].
Proof.
  intros Hnet Hq Hok.
  exists (newItem env "events" "register" (JObj [ ("eventId", eventId) ])). eexists.
  unfold EventService.registerForEvent, try_catch. simpl apiRequest. cbv iota beta.
  rewrite Hnet, (queueOperation_array _ _ _ _ _ _ Hq), Hok.
  split; [reflexivity |]. split; [simpl; by destruct (networkListenerActive w) |].
  split; [done |].
  intros env' i w2 Himp.
  rewrite (dispatch_known env' i _ (registerForEvent (value eventId)) w2); [done | | done].
  by apply dispatch_register.
Qed.

Lemma queued_registration_is_replayed_witness :
  exists item w1,
    EventService.registerForEvent env_online (Refused "Service Unavailable" (Some 503))
      (JStr "ev42") (world_with (Holds (PArray [item_a])) false)
    = (Normal (queuedResponse item), w1) /\
    queueSlot w1 = Holds (PArray ([item_a] ++ [item])) /\
    status item = pending /\
    forall env' i w2,
      importError env' i eventService = None ->
      fst (processQueueItem env' i item w2)
      = match remote env' i (registerForEvent (value (JStr "ev42"))) with
        | Resolved => Normal tt
        | Rejected e => Thrown e
        end /\
      calls (snd (processQueueItem env' i item w2))
      = calls w2 ++ [registerForEvent (value (JStr "ev42"))].
Proof.
  apply (queued_registration_is_replayed env_online "Service Unavailable" (Some 503)
           (JStr "ev42") (world_with (Holds (PArray [item_a])) false) [item_a]);
    reflexivity.
Defined.

(** X14. [registerForEvent] writes the stored queue only when the direct
    call failed with a message that includes ['network'] or with status
    503: an answered call, any other error and an expired session leave
    the queue as it was. *)
Theorem registration_queued_only_on_network_failure env direct eventId w :
  queueSlot (snd (EventService.registerForEvent env direct eventId w)) <> queueSlot w ->
  exists message st,
    direct = Refused message st /\
    (includes "network" message = true \/ st = Some 503).
Proof.
  unfold EventService.registerForEvent, try_catch.
  destruct direct as [response | message st |]; simpl; [done | | done].
  unfold network_or_unavailable. simpl.
  destruct (includes "network" message) eqn:Hinc; simpl.
  - intros _. exists message, st. split; [done | by left].
  - destruct st as [code |]; [| done].
    destruct (Z.eqb_spec code 503) as [-> | Hne]; [| done].
    intros _. exists message, (Some 503). split; [done | by right].
Qed.

Lemma registration_queued_only_on_network_failure_witness :
  exists message st,
    Refused "network unreachable" None = Refused message st /\
    (includes "network" message = true \/ st = Some 503).
Proof.
  apply (registration_queued_only_on_network_failure env_online
           (Refused "network unreachable" None) (JStr "ev42")
           (world_with (Holds (PArray [item_a])) false)).
  vm_compute. discriminate.
Defined.

(** X15. When the direct call of [registerForEvent] is answered by a 401,
    the error ['Authentication expired. Please log in again.'] is
    thrown, nothing is queued, and the client is left logged out: from
    then on every [processQueue] is skipped and changes nothing. *)
Theorem expired_session_stops_processing env env' eventId w :
  exists w1,
    EventService.registerForEvent env Expired eventId w
    = (Thrown "Authentication expired. Please log in again.", w1) /\
    queueSlot w1 = queueSlot w /\
    isAuthenticated w1 = false /\
    processQueue env' w1 = (Normal (RSkipped 0 true), w1).
Proof.
  eexists. split; [reflexivity |]. split; [done |]. split; [done |].
  apply processQueue_skipped. by right.
Qed.

Lemma length_substr_le start len s : (String.length (substr start len s) <= len)%nat.
Proof.
  unfold substr. revert start len.
  induction s as [| c s IH]; intros [| start] [| len]; simpl; try lia.
  - specialize (IH 0%nat len). lia.
  - apply (IH start 0%nat).
  - apply (IH start (S len)).
Qed.

Lemma length_append_string (a b : string) :
  String.length (a +:+ b) = (String.length a + String.length b)%nat.
Proof. induction a as [| c a IH]; simpl; [done | by rewrite IH]. Qed.

(** X16. Every id that [generateId] makes starts with ['queue_'] and is at
    most 15 characters long, whatever the random draw. *)
Theorem generated_id_shape env :
  String.prefix "queue_" (generateId env) = true /\
  (6 <= String.length (generateId env) <= 15)%nat.
Proof.
  unfold generateId. split; [simpl; by destruct (substr 2 9 (random36 env)) |].
  rewrite length_append_string. simpl.
  pose proof (length_substr_le 2 9 (random36 env)). lia.
Qed.

Lemma enqueueAll_fields requests : forall w,
  let w' := snd (enqueueAll requests w) in
  isProcessing w' = isProcessing w /\
  authToken w' = authToken w /\
  attempted w' = attempted w /\
  calls w' = calls w.
Proof.
  induction requests as [| r rest IH]; intros w; simpl; [done |].
  destruct (queueOperation (req_env r) (req_resource r) (req_operation r) (req_data r) w)
    as [c w1] eqn:Hop.
  specialize (IH w1). destruct (enqueueAll rest w1) as [cs w2]. simpl in *.
  destruct IH as (H1 & H2 & H3 & H4). rewrite H1, H2, H3, H4.
  destruct (queueOperation_cases (req_env r) (req_resource r) (req_operation r)
              (req_data r) w) as [[_ H] | (queue & _ & H)];
    rewrite H in Hop; injection Hop as <- <-; [done |].
  destruct (setItemOk (req_env r)); simpl; by destruct (networkListenerActive w).
Qed.

Lemma filter_not_completed_created requests :
  List.filter not_completed (map created requests) = map created requests.
Proof. induction requests as [| r rest IH]; simpl; [done | by rewrite IH]. Qed.

(** X17. First in, first out, end to end: requests enqueued one after the
    other on a store that accepts the writes are handed to the dispatcher
    by the next run in the order of the requests, after the items that
    were waiting already, each exactly once. *)
Theorem enqueued_items_are_dispatched_in_order requests env w queue :
  isProcessing w = false ->
  isAuthenticated w = true ->
  readSlot (queueSlot w) = PArray queue ->
  Forall (fun r => setItemOk (req_env r) = true) requests ->
  attempted (snd (processQueue env (snd (enqueueAll requests w))))
  = attempted w
    ++ map id (List.filter not_completed queue)
    ++ map (fun r => generateId (req_env r)) requests.
Proof.
  intros Hflag Hauth Hq Hok.
  pose proof (enqueueAll_stored requests w queue Hq Hok) as Hstored.
  destruct (enqueueAll_fields requests w) as (Hf & Ht & Ha & _). simpl in *.
  rewrite (attempted_after_run env _ (queue ++ map created requests)).
  - rewrite Ha, List.filter_app, List.map_app, filter_not_completed_created, map_map. done.
  - by rewrite Hf.
  - unfold isAuthenticated in *. by rewrite Ht.
  - done.
Qed.

Lemma enqueued_items_are_dispatched_in_order_witness :
  let draw r := mkEnv 1700000000000 r true no_import_error (always Resolved) type_error_text in
  let requests := [ mkRequest (draw "0.aaa") "reports" "create" report_payload;
                    mkRequest (draw "0.bbb") "widgets" "create" JNull;
                    mkRequest (draw "0.ccc") "events" "register" JNull ] in
  let w := world_with (Holds (PArray [item_done 0; item_b])) false in
  attempted (snd (processQueue env_offline (snd (enqueueAll requests w))))
  = attempted w
    ++ map id (List.filter not_completed [item_done 0; item_b])
    ++ map (fun r => generateId (req_env r)) requests.
Proof.
  intros draw requests w.
  apply (enqueued_items_are_dispatched_in_order requests env_offline w [item_done 0; item_b]);
    [reflexivity | reflexivity | reflexivity | repeat constructor].
Defined.

Lemma environment_item_never_replayed env operation payload w queue :
  readSlot (queueSlot w) = PArray queue ->
  setItemOk env = true ->
  queued_but_never_replayed (queueOperation env "environment" operation payload) w queue.
Proof.
  intros Hq Hok. exists (newItem env "environment" operation payload). eexists.
  split; [apply (queueOperation_array _ _ _ _ _ _ Hq) |].
  split; [done |]. rewrite Hok.
  split; [simpl; by destruct (networkListenerActive w) |].
  split; [done |].
  intros env' i w2.
  apply (dispatch_unknown_resource env' i (newItem env "environment" operation payload) w2).
  unfold known_resource. simpl. intros [H | [H | H]]; discriminate.
Qed.

(** X18. What the environment service queues can never be replayed. When
    the direct call fails while the browser is offline (and the store
    reads as an array and accepts the write), each of
    [subscribeToAreaAlerts], [unsubscribeFromAreaAlerts] and
    [reportEnvironmentalCondition] answers with the success-shaped
    response and stores its item; but the dispatcher knows no resource
    ['environment'], so every attempt at that item throws
    ['Unknown resource: environment'] and no remote call is ever issued
    for it. *)
Theorem environment_operations_are_never_replayed
  env message st area alertTypes subscriptionId payload w queue :
  readSlot (queueSlot w) = PArray queue ->
  setItemOk env = true ->
  queued_but_never_replayed
    (EnvironmentService.subscribeToAreaAlerts env false (Refused message st) area alertTypes)
    w queue /\
  queued_but_never_replayed
    (EnvironmentService.unsubscribeFromAreaAlerts env false (Refused message st) subscriptionId)
    w queue /\
  queued_but_never_replayed
    (EnvironmentService.reportEnvironmentalCondition env false (Refused message st) payload)
    w queue.
Proof.
  intros Hq Hok. repeat split;
    apply (environment_item_never_replayed env _ _ w queue Hq Hok).
Qed.

Lemma environment_operations_are_never_replayed_witness :
  let w := world_with (Holds (PArray [item_a])) false in
  queued_but_never_replayed
    (EnvironmentService.subscribeToAreaAlerts env_online false (Refused "Failed to fetch" None)
       (JObj [ ("name", JStr "Atlas") ]) (JArr [ JStr "fire" ]))
    w [item_a] /\
  queued_but_never_replayed
    (EnvironmentService.unsubscribeFromAreaAlerts env_online false
       (Refused "Failed to fetch" None) (JStr "sub7"))
    w [item_a] /\
  queued_but_never_replayed
    (EnvironmentService.reportEnvironmentalCondition env_online false
       (Refused "Failed to fetch" None) report_payload)
    w [item_a].
Proof.
  intros w.
  apply (environment_operations_are_never_replayed env_online "Failed to fetch" None
           (JObj [ ("name", JStr "Atlas") ]) (JArr [ JStr "fire" ]) (JStr "sub7")
           report_payload w [item_a]);
    reflexivity.
Defined.

(** While the browser is online the same three calls queue nothing: the
    error is thrown on. *)
Example environment_online_errors_are_thrown :
  let w := world_with (Holds (PArray [item_a])) false in
  EnvironmentService.reportEnvironmentalCondition env_online true
    (Refused "Failed to fetch" None) report_payload w
  = (Thrown "Failed to fetch", w).
Proof. reflexivity. Qed.

(** ** Completed items *)

Lemma imap_fixed {A : Type} (f : nat -> A -> A) (l : list A) :
  (forall i x, In x l -> f i x = x) -> imap f l = l.
Proof.
  revert f. induction l as [| x l IH]; intros f Hf; simpl; [done |].
  rewrite Hf by (by left). f_equal. apply IH. intros i y Hy. apply Hf. by right.
Qed.

Lemma passed_completed env queue :
  Forall (fun item => status item = completed) queue -> passed env queue = queue.
Proof.
  intros Hall. unfold passed. apply imap_fixed. intros i item Hin.
  rewrite Forall_forall in Hall. unfold step.
  rewrite decide_True; [done |]. apply Hall. by apply list_elem_of_In.
Qed.

Lemma nothing_to_attempt env queue : forall i,
  Forall (fun item => status item = completed) queue ->
  List.filter not_completed queue = [] /\ issuedFrom env i queue = [].
Proof.
  induction queue as [| item rest IH]; intros i Hall; [done |].
  apply Forall_cons in Hall as [Hs Hrest]. destruct (IH (S i) Hrest) as [Hf Hi].
  split.
  - by rewrite filter_not_completed_cons, decide_True.
  - simpl. by rewrite decide_True.
Qed.

Lemma sublist_list_filter {A : Type} (f : A -> bool) (l : list A) :
  sublist (List.filter f l) l.
Proof.
  induction l as [| x l IH]; simpl; [constructor |].
  destruct (f x); by constructor.
Qed.

Lemma run_on_completed_queue env w :
  Forall (fun item => status item = completed) (stored w) ->
  let w' := snd (processQueue env w) in
  Forall (fun item => status item = completed) (stored w') /\
  attempted w' = attempted w /\
  calls w' = calls w /\
  sublist (stored w') (stored w).
Proof.
  intros Hall. simpl. destruct (isProcessing w) eqn:Hflag.
  { rewrite (processQueue_skipped env w); [done | by left]. }
  destruct (isAuthenticated w) eqn:Hauth.
  2: { rewrite (processQueue_skipped env w); [done | by right]. }
  destruct (readSlot_cases (queueSlot w)) as [Hbad | (queue & Hq)].
  { rewrite (processQueue_error env w Hflag Hauth Hbad). unfold stored in *. simpl. done. }
  destruct queue as [| item rest].
  { rewrite (processQueue_empty env w Hflag Hauth Hq). unfold stored in *. simpl. done. }
  destruct (processQueue_runs env w Hflag Hauth (item :: rest) Hq) as (p & f & Hrun); [done |].
  rewrite Hrun. unfold stored in *. rewrite Hq in *. simpl in Hall.
  destruct (nothing_to_attempt env (item :: rest) 0 Hall) as [Hf Hi].
  unfold after_run. rewrite Hf, Hi, log_all_nil.
  destruct (setItemOk env); simpl; rewrite ?Hq; simpl; [| done].
  unfold swept. rewrite (passed_completed env (item :: rest) Hall).
  split; [| split; [done | split; [done |]]].
  - apply Forall_forall. intros x Hx. apply list_elem_of_In, filter_In in Hx as [Hx _].
    rewrite Forall_forall in Hall. by apply Hall, list_elem_of_In.
  - apply sublist_list_filter.
Qed.

(** X19. Completed items are never dispatched again: whatever runs
    follow, a queue whose items are all ['completed'] causes no attempt
    and no remote call, its items stay ['completed'], and the stored
    queue only ever loses items (to the sweep), keeping the order of the
    rest. *)
Theorem completed_queue_is_only_swept envs w :
  Forall (fun item => status item = completed) (stored w) ->
  let w' := processAll envs w in
  Forall (fun item => status item = completed) (stored w') /\
  attempted w' = attempted w /\
  calls w' = calls w /\
  sublist (stored w') (stored w).
Proof.
  revert w. induction envs as [| env rest IH]; intros w Hall; simpl; [done |].
  destruct (run_on_completed_queue env w Hall) as (Hall1 & Ha1 & Hc1 & Hs1).
  destruct (IH _ Hall1) as (Hall2 & Ha2 & Hc2 & Hs2). simpl in *.
  change (fold_left _ rest _) with (processAll rest (snd (processQueue env w))).
  split; [done |]. split; [by rewrite Ha2 |]. split; [by rewrite Hc2 |].
  by etransitivity.
Qed.

Lemma completed_queue_is_only_swept_witness :
  let envs := [env_online; env_store_full; env_offline] in
  let w := world_with (Holds (PArray [item_done 0; item_done 1699999999000])) false in
  let w' := processAll envs w in
  Forall (fun item => status item = completed) (stored w') /\
  attempted w' = attempted w /\
  calls w' = calls w /\
  sublist (stored w') (stored w).
Proof.
  intros envs w. apply (completed_queue_is_only_swept envs w).
  repeat constructor.
Defined.

(** ** A run in which every call resolves *)

Lemma count_status_all_completed queue :
  Forall (fun item => status item = completed) queue ->
  count_status completed queue = length queue /\
  count_status failed queue = 0%nat /\
  forall f, count_status pending (List.filter f queue) = 0%nat.
Proof.
  induction 1 as [| item rest Hs _ (IH1 & IH2 & IH3)]; [done |].
  rewrite !count_status_cons, Hs, IH1, IH2. simpl. repeat split; try done.
  intros f. destruct (f item); [| apply IH3].
  rewrite count_status_cons, Hs, IH3. done.
Qed.

Lemma count_not_completed queue :
  (count_status completed queue + length (List.filter not_completed queue))%nat
  = length queue.
Proof.
  induction queue as [| item rest IH]; [done |].
  rewrite count_status_cons, filter_not_completed_cons. simpl length.
  case_decide as Hs.
  - rewrite bool_decide_eq_true_2 by done. lia.
  - rewrite bool_decide_eq_false_2 by done. simpl. lia.
Qed.

Lemma passed_all_resolved env queue :
  (forall i item,
     queue !! i = Some item -> status item <> completed ->
     forall wi, fst (processQueueItem env i item wi) = Normal tt) ->
  Forall (fun item => status item = completed) (passed env queue).
Proof.
  intros Hres. apply Forall_forall. intros x Hx.
  apply list_elem_of_lookup in Hx as [i Hi].
  unfold passed in Hi. rewrite list_lookup_imap in Hi.
  destruct (queue !! i) as [item |] eqn:Hq; [| done]. simpl in Hi. injection Hi as <-.
  unfold step. case_decide as Hs; [done |].
  unfold settle, verdict. by rewrite (Hres i item Hq Hs blank).
Qed.

(** X20. When every dispatch of a run resolves, the run completes
    everything that was waiting, items already ['failed'] included: it
    reports [processed] as the number of items that were not
    ['completed'], [failed: 0] and [remaining: 0], and on a store that
    accepts the write only ['completed'] items are left. *)
Theorem all_resolving_run_completes_everything env w queue :
  isProcessing w = false ->
  isAuthenticated w = true ->
  readSlot (queueSlot w) = PArray queue ->
  queue <> [] ->
  (forall i item,
     queue !! i = Some item -> status item <> completed ->
     forall wi, fst (processQueueItem env i item wi) = Normal tt) ->
  fst (processQueue env w)
  = Normal (RSummary (Z.of_nat (length (List.filter not_completed queue))) 0 0) /\
  (setItemOk env = true ->
   Forall (fun item => status item = completed) (stored (snd (processQueue env w)))).
Proof.
  intros Hflag Hauth Hq Hne Hres.
  pose proof (passed_all_resolved env queue Hres) as Hall.
  destruct (forEachItem_counts env queue 0 (0, 0) (set_isProcessing true w))
    as (q' & a & b & w1 & Hloop & Hc & Hf & Hn).
  destruct (forEachItem_imap env queue 0 (0, 0) (set_isProcessing true w)) as (counts & Himap).
  change (imap (fun j => step env (0 + j)%nat) queue) with (passed env queue) in Himap.
  assert (q' = passed env queue) as -> by congruence.
  destruct (count_status_all_completed _ Hall) as (Hc1 & Hf1 & Hp1).
  pose proof (count_not_completed queue) as Htot.
  assert (Hlen : length (passed env queue) = length queue)
    by (unfold passed; apply length_imap).
  split.
  - rewrite (processQueue_summary env w queue _ _ _ Hflag Hauth Hq Hne Hloop). simpl.
    change (length (List.filter is_pending ?l)) with (count_status pending l).
    rewrite Hp1. f_equal. f_equal; lia.
  - intros Hok.
    destruct (processQueue_runs env w Hflag Hauth queue Hq Hne) as (p & f & Hrun).
    rewrite Hrun. unfold stored, after_run. rewrite Hok. simpl. unfold swept.
    apply Forall_forall. intros x Hx. apply list_elem_of_In, filter_In in Hx as [Hx _].
    rewrite Forall_forall in Hall. by apply Hall, list_elem_of_In.
Qed.

Lemma all_resolving_run_completes_everything_witness :
  let queue := [item_a; item_done 1699999999000; item_exhausted; item_b] in
  let w := world_with (Holds (PArray queue)) false in
  fst (processQueue env_online w)
  = Normal (RSummary (Z.of_nat (length (List.filter not_completed queue))) 0 0) /\
  (setItemOk env_online = true ->
   Forall (fun item => status item = completed) (stored (snd (processQueue env_online w)))).
Proof.
  intros queue w.
  apply (all_resolving_run_completes_everything env_online w queue);
    [reflexivity | reflexivity | reflexivity | discriminate |].
  intros i item Hi Hs wi. rewrite processQueueItem_log. simpl.
  destruct i as [| [| [| [| i]]]]; simpl in Hi; try discriminate;
    injection Hi as <-; try reflexivity.
Defined.
